(** * Tic-Tac-Toe backend: the game model and its service wrapper

    A shallow embedding of class [GameModel] ([src/models/game.ts]), of
    the methods of class [GameService] in front of it and of the part of
    class [PlayerModel] that the service calls, together with the
    properties of the game state machine.

    Conventions of the embedding:
    - the [Map<string, Game>] held by [GameModel] is a [gmap string Game];
      every game object is stored under one key only, so the in-place
      mutations of the object fetched with [getGameById] are updates of
      the map entry;
    - a method is a function from the map to a result and the map that is
      left behind, also when the method throws: an exception does not undo
      the assignments made before it;
    - [uuidv4()] and the clock are inputs of each call ([Env]);
    - JavaScript numbers that are used as coordinates are integers ([Z]);
      array indexing out of range yields [undefined] ([None]) and reading
      a property of [undefined] throws a [TypeError]. *)

From stdpp Require Import base option list gmap strings pretty.
From Stdlib Require Import ZArith Lia.
From stdpp Require Import sorting.

(** ** Data model ([src/types.ts]) *)

Inductive GameStatus := waiting | active | completed | draw.

#[global] Instance GameStatus_eq_dec : EqDecision GameStatus.
Proof. solve_decision. Defined.

(** A cell is [null] ([None]) or the id of the player that occupies it. *)
Abbreviation Cell := (option string).
Abbreviation GameBoard := (list (list (option string))).

(** [Player]: the game model reads the [id] of a player and nothing else;
    the statistics and the dates of a player belong to the player model. *)
Record Player := {
  player_id : string;
  player_name : string;
  player_email : string;
}.

Record Move := {
  move_id : string;
  move_gameId : string;
  move_playerId : string;
  move_row : Z;
  move_col : Z;
  move_timestamp : Z;
}.

Record Game := {
  game_id : string;
  game_name : string;
  status : GameStatus;
  board : GameBoard;
  players : list Player;
  currentPlayerId : option string;
  winnerId : option string;
  createdAt : Z;
  updatedAt : Z;
  moves : list Move;
}.

#[global] Instance Player_eq_dec : EqDecision Player.
Proof. solve_decision. Defined.
#[global] Instance Move_eq_dec : EqDecision Move.
Proof. solve_decision. Defined.
#[global] Instance Game_eq_dec : EqDecision Game.
Proof. solve_decision. Defined.

Inductive WinCondition := row_line | column_line | diagonal_line.

(** The object returned by [checkWinCondition]: [{ won: false }] or
    [{ won: true, condition, position }]. *)
Record WinResult := {
  won : bool;
  condition : option WinCondition;
  position : option nat;
}.

(** Assignments to the fields of a game object. *)
Definition set_status (v : GameStatus) (g : Game) : Game :=
  {| game_id := game_id g; game_name := game_name g; status := v;
     board := board g; players := players g;
     currentPlayerId := currentPlayerId g; winnerId := winnerId g;
     createdAt := createdAt g; updatedAt := updatedAt g; moves := moves g |}.

Definition set_board (v : GameBoard) (g : Game) : Game :=
  {| game_id := game_id g; game_name := game_name g; status := status g;
     board := v; players := players g;
     currentPlayerId := currentPlayerId g; winnerId := winnerId g;
     createdAt := createdAt g; updatedAt := updatedAt g; moves := moves g |}.

Definition set_players (v : list Player) (g : Game) : Game :=
  {| game_id := game_id g; game_name := game_name g; status := status g;
     board := board g; players := v;
     currentPlayerId := currentPlayerId g; winnerId := winnerId g;
     createdAt := createdAt g; updatedAt := updatedAt g; moves := moves g |}.

Definition set_currentPlayerId (v : option string) (g : Game) : Game :=
  {| game_id := game_id g; game_name := game_name g; status := status g;
     board := board g; players := players g;
     currentPlayerId := v; winnerId := winnerId g;
     createdAt := createdAt g; updatedAt := updatedAt g; moves := moves g |}.

Definition set_winnerId (v : option string) (g : Game) : Game :=
  {| game_id := game_id g; game_name := game_name g; status := status g;
     board := board g; players := players g;
     currentPlayerId := currentPlayerId g; winnerId := v;
     createdAt := createdAt g; updatedAt := updatedAt g; moves := moves g |}.

Definition set_updatedAt (v : Z) (g : Game) : Game :=
  {| game_id := game_id g; game_name := game_name g; status := status g;
     board := board g; players := players g;
     currentPlayerId := currentPlayerId g; winnerId := winnerId g;
     createdAt := createdAt g; updatedAt := v; moves := moves g |}.

Definition set_moves (v : list Move) (g : Game) : Game :=
  {| game_id := game_id g; game_name := game_name g; status := status g;
     board := board g; players := players g;
     currentPlayerId := currentPlayerId g; winnerId := winnerId g;
     createdAt := createdAt g; updatedAt := updatedAt g; moves := v |}.

(** ** Errors *)

(** One constructor per [throw new Error(...)] of the two classes, and
    [ErrTypeError] for a property read on [undefined]. *)
Inductive Error :=
  | ErrGameNotFound
  | ErrNotAccepting
  | ErrGameFull
  | ErrNotActive
  | ErrNotYourTurn
  | ErrCoordinates
  | ErrCellOccupied
  | ErrPlayerNotInGame
  | ErrInvalidGameId
  | ErrDeleteActive
  | ErrTypeError.

#[global] Instance Error_eq_dec : EqDecision Error.
Proof. solve_decision. Defined.

Definition message (e : Error) : string :=
  match e with
  | ErrGameNotFound => "Game not found"
  | ErrNotAccepting => "Game is not accepting new players"
  | ErrGameFull => "Game is full"
  | ErrNotActive => "Game is not active"
  | ErrNotYourTurn => "Not your turn"
  | ErrCoordinates => "Move coordinates must be between 0 and 2"
  | ErrCellOccupied => "Cell is already occupied"
  | ErrPlayerNotInGame => "Player not found in game"
  | ErrInvalidGameId => "Game ID must be a valid string"
  | ErrDeleteActive => "Cannot delete an active game"
  | ErrTypeError => "Cannot read properties of undefined"
  end.

(** The error kinds of the specification, and the kind of each error. *)
Inductive ErrorKind :=
  | NotFound | InvalidState | Forbidden | OutOfBounds | CellOccupied
  | Conflict | ValidationError | Fatal.

Definition kind (e : Error) : ErrorKind :=
  match e with
  | ErrGameNotFound => NotFound
  | ErrNotAccepting | ErrNotActive | ErrDeleteActive => InvalidState
  | ErrGameFull => Conflict
  | ErrNotYourTurn => Forbidden
  | ErrCoordinates => OutOfBounds
  | ErrCellOccupied => CellOccupied
  | ErrInvalidGameId => ValidationError
  | ErrPlayerNotInGame | ErrTypeError => Fatal
  end.

Inductive Result (A : Type) :=
  | Ok (a : A)
  | Throw (e : Error).
Arguments Ok {A} a.
Arguments Throw {A} e.

#[global] Instance Result_ret : MRet Result := @Ok.
#[global] Instance Result_bind : MBind Result := λ A B f r,
  match r with
  | Ok a => f a
  | Throw e => Throw e
  end.

Definition is_Ok {A} (r : Result A) : Prop := ∃ a, r = Ok a.

(** What a call reads from its environment: the identifier that
    [uuidv4()] returns, and the clock, [clock k] being the value of the
    [k]-th reading ([new Date()] or [Date.now()]) made by the call. *)
Record Env := {
  uuidv4 : string;
  clock : nat → Z;
}.

(** ** The rules of the game (private helpers of [GameModel]) *)

Definition createEmptyBoard : GameBoard :=
  [ [None; None; None];
    [None; None; None];
    [None; None; None] ].

(** [board[r][c] === v] for a value [v] that is [null] or a string: a
    [TypeError] when [board[r]] is [undefined], false when the cell is. *)
Definition cell_is (b : GameBoard) (r c : nat) (v : Cell) : Result bool :=
  match b !! r with
  | None => Throw ErrTypeError
  | Some cells => Ok (bool_decide (cells !! c = Some v))
  end.

(** [x && y]: [y] is evaluated only when [x] is true. *)
Definition and_then (x y : Result bool) : Result bool :=
  b ← x; if b : bool then y else Ok false.
Infix "&&&" := and_then (at level 40, left associativity).

(** [for (let i = 0; i < 3; i++) if (test i) return ...]: the first index
    of the range at which the test holds. *)
Fixpoint first_index (test : nat → Result bool) (range : list nat)
  : Result (option nat) :=
  match range with
  | [] => Ok None
  | i :: range' =>
      b ← test i;
      if b : bool then Ok (Some i) else first_index test range'
  end.

Definition checkWinCondition (b : GameBoard) (playerId : string)
  : Result WinResult :=
  let p := Some playerId in
  r ← first_index
        (λ row, cell_is b row 0 p &&& cell_is b row 1 p &&& cell_is b row 2 p)
        (seq 0 3);
  match r with
  | Some row =>
      Ok {| won := true; condition := Some row_line; position := Some row |}
  | None =>
  c ← first_index
        (λ col, cell_is b 0 col p &&& cell_is b 1 col p &&& cell_is b 2 col p)
        (seq 0 3);
  match c with
  | Some col =>
      Ok {| won := true; condition := Some column_line; position := Some col |}
  | None =>
  d0 ← cell_is b 0 0 p &&& cell_is b 1 1 p &&& cell_is b 2 2 p;
  if d0 : bool then
    Ok {| won := true; condition := Some diagonal_line; position := Some 0 |}
  else
  d1 ← cell_is b 0 2 p &&& cell_is b 1 1 p &&& cell_is b 2 0 p;
  if d1 : bool then
    Ok {| won := true; condition := Some diagonal_line; position := Some 1 |}
  else
    Ok {| won := false; condition := None; position := None |}
  end
  end.

Definition isDraw (b : GameBoard) : Result bool :=
  r ← first_index
        (λ row, c ← first_index (λ col, cell_is b row col None) (seq 0 3);
                Ok (bool_decide (is_Some c)))
        (seq 0 3);
  Ok (bool_decide (r = None)).

(** [getValidMoves]: the empty cells in row-major order. *)
Definition getValidMoves (b : GameBoard) : Result (list (nat * nat)) :=
  foldl (λ acc rc,
           moves_so_far ← acc;
           empty ← cell_is b rc.1 rc.2 None;
           Ok (if empty : bool then moves_so_far ++ [rc] else moves_so_far))
        (Ok [])
        (row ← seq 0 3; col ← seq 0 3; [(row, col)]).

(** ** The state of a model instance and its methods *)

(** A method runs on the map of games and leaves a map behind, whether it
    returns or throws. *)
Definition M (A : Type) : Type :=
  gmap string Game → Result A * gmap string Game.

#[global] Instance M_ret : MRet M := λ A a games, (Ok a, games).
#[global] Instance M_bind : MBind M := λ A B f m games,
  match m games with
  | (Ok a, games') => f a games'
  | (Throw e, games') => (Throw e, games')
  end.

Definition throw {A} (e : Error) : M A := λ games, (Throw e, games).

(** A pure helper called from a method. *)
Definition call {A} (r : Result A) : M A := λ games, (r, games).

(** The object stored under [gameId] now holds [game]: the assignments to
    the fields of the object fetched from the map, and [games.set]. *)
Definition store (gameId : string) (game : Game) : M () :=
  λ games, (Ok (), <[gameId := game]> games).

(** [games.delete(gameId)]. *)
Definition remove (gameId : string) : M () :=
  λ games, (Ok (), delete gameId games).

(** [l[i]] for an integer [i]. *)
Definition index_at {A} (l : list A) (i : Z) : option A :=
  if decide (0 ≤ i)%Z then l !! Z.to_nat i else None.

(** [l.find(P)] and [l.findIndex(P)]. *)
Definition find {A} (P : A → Prop) `{∀ x, Decision (P x)} (l : list A)
  : option A :=
  snd <$> list_find P l.

Definition findIndex {A} (P : A → Prop) `{∀ x, Decision (P x)} (l : list A)
  : Z :=
  from_option (λ ix, Z.of_nat ix.1) (-1)%Z (list_find P l).

(** [Array.from(this.games.values())]: the games in the order in which
    the [Map] iterates over its keys. The [gmap] does not record that
    order, so the methods that iterate take it as an input, [order]. *)
Definition values_in (order : list string) (games : gmap string Game)
  : list Game :=
  omap (λ k, games !! k) order.

(** [l.sort((a, b) => b.createdAt.getTime() - a.createdAt.getTime())]:
    [Array.prototype.sort] is stable, so the result is the one of the
    insertion sort that puts an element behind the elements created
    strictly later and before all the others. *)
Fixpoint insert_newest (g : Game) (sorted : list Game) : list Game :=
  match sorted with
  | [] => [g]
  | h :: t =>
      if decide (createdAt g < createdAt h)%Z then h :: insert_newest g t
      else g :: h :: t
  end.

Definition sort_newest_first (l : list Game) : list Game :=
  foldr insert_newest [] l.

Module GameModel.

Definition createGame (env : Env) (name : option string) : M Game :=
  let named :=
    match name with
    | Some n => bool_decide (n ≠ "")
    | None => false
    end in
  let k := if named then 0 else 1 in
  let game :=
    {| game_id := uuidv4 env;
       game_name := if named then default "" name
                    else "Game-" +:+ pretty (clock env 0);
       status := waiting;
       board := createEmptyBoard;
       players := [];
       currentPlayerId := None;
       winnerId := None;
       createdAt := clock env k;
       updatedAt := clock env (S k);
       moves := [] |} in
  store (game_id game) game;;
  mret game.

Definition getGameById (gameId : string) : M (option Game) :=
  λ games, (Ok (games !! gameId), games).

Definition joinGame (env : Env) (gameId : string) (player : Player)
  : M Game :=
  found ← getGameById gameId;
  match found with
  | None => throw ErrGameNotFound
  | Some game =>
    if decide (status game ≠ waiting) then throw ErrNotAccepting
    else if decide (2 ≤ length (players game)) then throw ErrGameFull
    else
      let game := set_players (players game ++ [player]) game in
      store gameId game;;
      if decide (length (players game) = 2) then
        let game := set_status active game in
        store gameId game;;
        match index_at (players game) 0 with
        | None => throw ErrTypeError
        | Some first =>
          let game := set_currentPlayerId (Some (player_id first)) game in
          let game := set_updatedAt (clock env 0) game in
          store gameId game;;
          mret game
        end
      else
        let game := set_updatedAt (clock env 0) game in
        store gameId game;;
        mret game
  end.

Definition makeMove (env : Env) (gameId playerId : string) (row col : Z)
  : M (Game * Move) :=
  found ← getGameById gameId;
  match found with
  | None => throw ErrGameNotFound
  | Some game =>
    if decide (status game ≠ active) then throw ErrNotActive
    else if decide (currentPlayerId game ≠ Some playerId)
    then throw ErrNotYourTurn
    else if decide (row < 0 ∨ 2 < row ∨ col < 0 ∨ 2 < col)%Z
    then throw ErrCoordinates
    else
      match index_at (board game) row with
      | None => throw ErrTypeError
      | Some cells =>
        if decide (index_at cells col ≠ Some None)
        then throw ErrCellOccupied
        else
          match find (λ p, player_id p = playerId) (players game) with
          | None => throw ErrPlayerNotInGame
          | Some _ =>
            let game :=
              set_board (<[Z.to_nat row :=
                             <[Z.to_nat col := Some playerId]> cells]>
                           (board game)) game in
            let game := set_updatedAt (clock env 0) game in
            let move :=
              {| move_id := uuidv4 env;
                 move_gameId := gameId;
                 move_playerId := playerId;
                 move_row := row;
                 move_col := col;
                 move_timestamp := clock env 1 |} in
            let game := set_moves (moves game ++ [move]) game in
            store gameId game;;
            winResult ← call (checkWinCondition (board game) playerId);
            if won winResult then
              let game := set_status completed game in
              let game := set_winnerId (Some playerId) game in
              store gameId game;;
              mret (game, move)
            else
              full ← call (isDraw (board game));
              if full : bool then
                let game := set_status draw game in
                store gameId game;;
                mret (game, move)
              else
                let currentPlayerIndex :=
                  findIndex (λ p, player_id p = playerId) (players game) in
                let nextPlayerIndex :=
                  ((currentPlayerIndex + 1) `rem`
                     Z.of_nat (length (players game)))%Z in
                match index_at (players game) nextPlayerIndex with
                | None => throw ErrTypeError
                | Some next =>
                  let game :=
                    set_currentPlayerId (Some (player_id next)) game in
                  store gameId game;;
                  mret (game, move)
                end
          end
      end
  end.

Definition deleteGame (gameId : string) : M () :=
  found ← getGameById gameId;
  match found with
  | None => throw ErrGameNotFound
  | Some _ => remove gameId
  end.

Definition listGames (order : list string) (wanted : option GameStatus)
  : M (list Game) :=
  λ games,
    let all := values_in order games in
    let selected :=
      match wanted with
      | Some st => filter (λ game, status game = st) all
      | None => all
      end in
    (Ok (sort_newest_first selected), games).

End GameModel.

(** ** The service in front of the model ([GameService]) *)

(** The service holds one [GameModel]; its methods run on the map of that
    model. *)
Module GameService.

Definition getGameById (gameId : string) : M (option Game) :=
  if decide (gameId = "") then throw ErrInvalidGameId
  else GameModel.getGameById gameId.

Definition deleteGame (gameId : string) : M () :=
  found ← GameModel.getGameById gameId;
  match found with
  | None => throw ErrGameNotFound
  | Some game =>
    if decide (status game = active) then throw ErrDeleteActive
    else GameModel.deleteGame gameId
  end.

Definition getAllGames (order : list string) : M (list Game) :=
  GameModel.listGames order None.

Definition getGamesByStatus (order : list string) (st : GameStatus)
  : M (list Game) :=
  GameModel.listGames order (Some st).

Definition getValidMoves (gameId : string) : M (list (nat * nat)) :=
  found ← GameModel.getGameById gameId;
  match found with
  | None => throw ErrGameNotFound
  | Some game =>
    if decide (status game ≠ active) then throw ErrNotActive
    else call (getValidMoves (board game))
  end.

Definition getActiveGamesCount (order : list string) : M nat :=
  activeGames ← GameModel.listGames order (Some active);
  mret (length activeGames).

Definition getWaitingGamesCount (order : list string) : M nat :=
  waitingGames ← GameModel.listGames order (Some waiting);
  mret (length waitingGames).

Definition getCompletedGamesCount (order : list string) : M nat :=
  completedGames ← GameModel.listGames order (Some completed);
  mret (length completedGames).

(** *** The methods that use the player model

    The service holds a [PlayerModel] of its own beside the [GameModel].
    The methods below are modelled against the interface of that player
    model: a state, [getPlayerById], which reads it, and
    [recordGameResult], which returns a player or throws and leaves a
    state behind. *)

(** The errors of the service: those of the model, and its own. *)
Inductive ServiceError :=
  | FromModel (e : Error)
  | ErrPlayerNotInDatabase
  | ErrPlayerInActiveGame.

Definition service_message (e : ServiceError) : string :=
  match e with
  | FromModel e => message e
  | ErrPlayerNotInDatabase => "Player not found in database"
  | ErrPlayerInActiveGame => "Player is already in an active game"
  end.

Inductive SResult (A : Type) :=
  | SOk (a : A)
  | SThrow (e : ServiceError).
Arguments SOk {A} a.
Arguments SThrow {A} e.

(** The third argument of [recordGameResult]. *)
Inductive GameResult := result_win | result_loss | result_draw.

Section with_player_model.

Context {PlayerStore StoredPlayer : Type}.
Variable PlayerModel_getPlayerById : string → PlayerStore → option StoredPlayer.
Variable PlayerModel_recordGameResult :
  string → GameResult → nat → PlayerStore → option StoredPlayer * PlayerStore.

Record ServiceState := {
  gameModel : gmap string Game;
  playerModel : PlayerStore;
}.

Definition S (A : Type) : Type := ServiceState → SResult A * ServiceState.

(** A method of the game model called from the service. *)
Definition on_games {A} (m : M A) : S A :=
  λ st,
    match m (gameModel st) with
    | (Ok a, games') =>
        (SOk a, {| gameModel := games'; playerModel := playerModel st |})
    | (Throw e, games') =>
        (SThrow (FromModel e),
         {| gameModel := games'; playerModel := playerModel st |})
    end.

Definition joinGame (order : list string) (env : Env) (gameId : string)
    (player : Player) : S Game :=
  λ st,
    match PlayerModel_getPlayerById (player_id player) (playerModel st) with
    | None => (SThrow ErrPlayerNotInDatabase, st)
    | Some _ =>
      match on_games (GameModel.listGames order (Some active)) st with
      | (SThrow e, st) => (SThrow e, st)
      | (SOk activeGames, st) =>
        let playerInActiveGame :=
          find (λ game,
                  Exists (λ p, player_id p = player_id player) (players game))
               activeGames in
        match playerInActiveGame with
        | Some _ => (SThrow ErrPlayerInActiveGame, st)
        | None => on_games (GameModel.joinGame env gameId player) st
        end
      end
    end.

(** The calls of [recordGameResult] that [updatePlayerStats] makes for a
    game, one for each entry of [players]. *)
Definition recorded_results (game : Game)
  : list (string * GameResult * nat) :=
  (λ player,
     let playerMoves :=
       length (filter (λ move, move_playerId move = player_id player)
                      (moves game)) in
     let result :=
       if decide (status game = draw) then result_draw
       else if decide (winnerId game = Some (player_id player))
            then result_win
            else result_loss in
     (player_id player, result, playerMoves)) <$> players game.

(** [updatePlayerStats]: an exception of [recordGameResult] is caught
    and logged, the state that it leaves is kept. *)
Definition updatePlayerStats (game : Game) : S () :=
  λ st,
    if decide (status game ≠ completed ∧ status game ≠ draw) then (SOk (), st)
    else
      (SOk (),
       {| gameModel := gameModel st;
          playerModel :=
            foldl (λ ps '(playerId, result, playerMoves),
                     (PlayerModel_recordGameResult
                        playerId result playerMoves ps).2)
                  (playerModel st) (recorded_results game) |}).

Definition makeMove (env : Env) (gameId playerId : string) (row col : Z)
  : S (Game * Move) :=
  λ st,
    if decide (row < 0 ∨ 2 < row ∨ col < 0 ∨ 2 < col)%Z
    then (SThrow (FromModel ErrCoordinates), st)
    else
      match on_games (GameModel.makeMove env gameId playerId row col) st with
      | (SThrow e, st) => (SThrow e, st)
      | (SOk result, st) =>
        if decide (status result.1 = completed ∨ status result.1 = draw)
        then
          match updatePlayerStats result.1 st with
          | (SThrow e, st) => (SThrow e, st)
          | (SOk _, st) => (SOk result, st)
          end
        else (SOk result, st)
      end.

End with_player_model.

Arguments ServiceState : clear implicits.
Arguments Build_ServiceState {_} _ _.

End GameService.

(** ** Vocabulary of the properties *)

(** A well-formed board: three rows of three cells. *)
Definition is3x3 (b : GameBoard) : Prop :=
  length b = 3 ∧ Forall (λ cells, length cells = 3) b.

(** The cell at a position, when the position is on the board. *)
Definition cell_at (b : GameBoard) (rc : nat * nat) : option Cell :=
  cells ← b !! rc.1; cells !! rc.2.

(** The eight lines of the game, as the specification lists them: three
    rows, three columns, two diagonals. *)
Definition winning_lines : list (list (nat * nat)) :=
  [ [(0, 0); (0, 1); (0, 2)];
    [(1, 0); (1, 1); (1, 2)];
    [(2, 0); (2, 1); (2, 2)];
    [(0, 0); (1, 0); (2, 0)];
    [(0, 1); (1, 1); (2, 1)];
    [(0, 2); (1, 2); (2, 2)];
    [(0, 0); (1, 1); (2, 2)];
    [(0, 2); (1, 1); (2, 0)] ].

Definition occupies (b : GameBoard) (playerId : string)
    (line : list (nat * nat)) : Prop :=
  Forall (λ rc, cell_at b rc = Some (Some playerId)) line.

Definition three_in_a_row (b : GameBoard) (playerId : string) : Prop :=
  Exists (occupies b playerId) winning_lines.

(** Every cell of the board is occupied. *)
Definition board_full (b : GameBoard) : Prop :=
  Forall (Forall (λ c : Cell, c ≠ None)) b.

(** The games that the methods keep well formed: the board is 3×3 and
    the current player is unset exactly while the game waits. *)
Definition game_ok (g : Game) : Prop :=
  is3x3 (board g) ∧ (currentPlayerId g = None ↔ status g = waiting).

Definition games_ok (games : gmap string Game) : Prop :=
  map_Forall (λ _ g, game_ok g) games.

(** The calls that change the map of a model, and the maps that a
    sequence of calls can produce from the empty one. *)
Inductive Call :=
  | CreateGame (env : Env) (name : option string)
  | JoinGame (env : Env) (gameId : string) (player : Player)
  | MakeMove (env : Env) (gameId playerId : string) (row col : Z)
  | DeleteGame (gameId : string).

Definition run_call (games : gmap string Game) (c : Call)
  : gmap string Game :=
  match c with
  | CreateGame env name => (GameModel.createGame env name games).2
  | JoinGame env gameId player =>
      (GameModel.joinGame env gameId player games).2
  | MakeMove env gameId playerId row col =>
      (GameModel.makeMove env gameId playerId row col games).2
  | DeleteGame gameId => (GameModel.deleteGame gameId games).2
  end.

Definition run_calls (cs : list Call) : gmap string Game :=
  foldl run_call ∅ cs.

Inductive reachable : gmap string Game → Prop :=
  | reachable_empty : reachable ∅
  | reachable_call games c : reachable games → reachable (run_call games c).

(** The [Move] literal of [makeMove]. *)
Definition move_record (env : Env) (gameId playerId : string) (row col : Z)
  : Move :=
  {| move_id := uuidv4 env;
     move_gameId := gameId;
     move_playerId := playerId;
     move_row := row;
     move_col := col;
     move_timestamp := clock env 1 |}.

(** The own properties of a [Move] object, in the order of the literal. *)
Inductive JsValue :=
  | JsString (s : string)
  | JsNumber (n : Z)
  | JsDate (t : Z).

Definition Move_properties (m : Move) : list (string * JsValue) :=
  [ ("id", JsString (move_id m));
    ("gameId", JsString (move_gameId m));
    ("playerId", JsString (move_playerId m));
    ("row", JsNumber (move_row m));
    ("col", JsNumber (move_col m));
    ("timestamp", JsDate (move_timestamp m)) ].

(** The errors that [makeMove] throws itself. *)
Definition thrown_by_makeMove : list Error :=
  [ ErrGameNotFound; ErrNotActive; ErrNotYourTurn; ErrCoordinates;
    ErrCellOccupied; ErrPlayerNotInGame ].

(** ** A game between two players, used as the running example *)

Definition env_at (uuid : string) (t : Z) : Env :=
  {| uuidv4 := uuid; clock := λ k, (t + Z.of_nat k)%Z |}.

Definition alice : Player :=
  {| player_id := "A"; player_name := "Alice";
     player_email := "alice@example.com" |}.

Definition bob : Player :=
  {| player_id := "B"; player_name := "Bob";
     player_email := "bob@example.com" |}.

Definition opened : list Call :=
  [ CreateGame (env_at "G1" 1000) (Some "G1") ].

Definition one_joined : list Call :=
  opened ++ [ JoinGame (env_at "u1" 1010) "G1" alice ].

Definition lobby : list Call :=
  one_joined ++ [ JoinGame (env_at "u2" 1020) "G1" bob ].

Definition first_move : list Call :=
  lobby ++ [ MakeMove (env_at "m1" 1100) "G1" "A" 0 0 ].

Definition before_win : list Call :=
  first_move ++
  [ MakeMove (env_at "m2" 1200) "G1" "B" 1 0;
    MakeMove (env_at "m3" 1300) "G1" "A" 0 1;
    MakeMove (env_at "m4" 1400) "G1" "B" 1 1 ].

Definition alice_wins : list Call :=
  before_win ++ [ MakeMove (env_at "m5" 1500) "G1" "A" 0 2 ].

Definition nobody_wins : list Call :=
  lobby ++
  [ MakeMove (env_at "d1" 2100) "G1" "A" 0 0;
    MakeMove (env_at "d2" 2200) "G1" "B" 0 1;
    MakeMove (env_at "d3" 2300) "G1" "A" 0 2;
    MakeMove (env_at "d4" 2400) "G1" "B" 1 1;
    MakeMove (env_at "d5" 2500) "G1" "A" 1 0;
    MakeMove (env_at "d6" 2600) "G1" "B" 1 2;
    MakeMove (env_at "d7" 2700) "G1" "A" 2 1;
    MakeMove (env_at "d8" 2800) "G1" "B" 2 0;
    MakeMove (env_at "d9" 2900) "G1" "A" 2 2 ].

Definition one_joined_game : Game :=
  {| game_id := "G1"; game_name := "G1"; status := waiting;
     board := createEmptyBoard; players := [alice];
     currentPlayerId := None; winnerId := None;
     createdAt := 1000; updatedAt := 1010; moves := [] |}.

Definition lobby_game : Game :=
  {| game_id := "G1"; game_name := "G1"; status := active;
     board := createEmptyBoard; players := [alice; bob];
     currentPlayerId := Some "A"; winnerId := None;
     createdAt := 1000; updatedAt := 1020; moves := [] |}.

Definition short_board_game : Game :=
  {| game_id := "G1"; game_name := "G1"; status := active;
     board := [ [None; None; None] ]; players := [alice; bob];
     currentPlayerId := Some "A"; winnerId := None;
     createdAt := 1000; updatedAt := 1020; moves := [] |}.

Definition top_row_board : GameBoard :=
  [ [Some "A"; Some "A"; Some "A"];
    [Some "B"; Some "B"; None];
    [None; None; None] ].

(** ** Vocabulary of the further properties *)

(** The nine positions in the order of the two nested loops. *)
Definition positions : list (nat * nat) :=
  [ (0, 0); (0, 1); (0, 2); (1, 0); (1, 1); (1, 2); (2, 0); (2, 1); (2, 2) ].

(** The line that a result of [checkWinCondition] reports. *)
Definition reported_line (w : WinResult) : option (list (nat * nat)) :=
  match condition w, position w with
  | Some row_line, Some r => Some [ (r, 0); (r, 1); (r, 2) ]
  | Some column_line, Some c => Some [ (0, c); (1, c); (2, c) ]
  | Some diagonal_line, Some 0 => Some [ (0, 0); (1, 1); (2, 2) ]
  | Some diagonal_line, Some 1 => Some [ (0, 2); (1, 1); (2, 0) ]
  | _, _ => None
  end.

(** The number of occupied cells of a board. *)
Definition occupied_count (b : GameBoard) : nat :=
  length (filter (λ c : Cell, c ≠ None) (concat b)).

(** The position that a logged move names. *)
Definition move_pos (mv : Move) : nat * nat :=
  (Z.to_nat (move_row mv), Z.to_nat (move_col mv)).

(** No player occupies a winning line. *)
Definition no_line (b : GameBoard) : Prop :=
  ∀ q, ¬ three_in_a_row b q.

(** What the methods keep true of the game stored under [key]. *)
Record game_inv (key : string) (g : Game) : Prop := {
  inv_id : game_id g = key;
  inv_board : is3x3 (board g);
  inv_players :
    status g = waiting ∧ length (players g) < 2
    ∨ status g ≠ waiting ∧ length (players g) = 2;
  inv_fresh :
    status g = waiting → moves g = [] ∧ currentPlayerId g = None;
  inv_moves :
    ∀ i mv, moves g !! i = Some mv →
      move_gameId mv = key
      ∧ (0 ≤ move_row mv ≤ 2)%Z ∧ (0 ≤ move_col mv ≤ 2)%Z
      ∧ cell_at (board g) (move_pos mv) = Some (Some (move_playerId mv))
      ∧ ∃ p, players g !! (i mod 2) = Some p
             ∧ move_playerId mv = player_id p;
  inv_cells :
    ∀ rc p, cell_at (board g) rc = Some (Some p) →
      ∃ mv, mv ∈ moves g ∧ move_pos mv = rc ∧ move_playerId mv = p;
  inv_distinct : NoDup (move_pos <$> moves g);
  inv_count : occupied_count (board g) = length (moves g);
  inv_active :
    status g = active →
      (∃ p, players g !! (length (moves g) mod 2) = Some p
            ∧ currentPlayerId g = Some (player_id p))
      ∧ no_line (board g) ∧ ¬ board_full (board g);
  inv_draw :
    status g = draw → board_full (board g) ∧ no_line (board g);
  inv_completed :
    status g = completed →
      ∃ w, winnerId g = Some w
           ∧ three_in_a_row (board g) w
           ∧ ∀ q, three_in_a_row (board g) q → q = w;
  inv_winner : status g ≠ completed → winnerId g = None;
  inv_last :
    status g = completed ∨ status g = draw →
      ∃ ms mv, moves g = ms ++ [mv]
               ∧ currentPlayerId g = Some (move_playerId mv)
               ∧ (status g = completed →
                    winnerId g = Some (move_playerId mv));
}.

Definition games_inv (games : gmap string Game) : Prop :=
  ∀ key g, games !! key = Some g → game_inv key g.

(** [order] is an order in which a [Map] with these keys can iterate:
    every key once. *)
Definition key_order (order : list string) (games : gmap string Game)
  : Prop :=
  NoDup order ∧ ∀ k, k ∈ order ↔ is_Some (games !! k).

(** The key that a call works on. *)
Definition call_target (c : Call) : string :=
  match c with
  | CreateGame env _ => uuidv4 env
  | JoinGame _ gameId _ => gameId
  | MakeMove _ gameId _ _ _ => gameId
  | DeleteGame gameId => gameId
  end.

(** The call neither deletes the game stored under [key] nor creates a
    game under that key. *)
Definition leaves (key : string) (c : Call) : Prop :=
  match c with
  | CreateGame env _ => uuidv4 env ≠ key
  | DeleteGame gameId => gameId ≠ key
  | JoinGame _ _ _ | MakeMove _ _ _ _ _ => True
  end.

(** [g'] is a later state of the game [g]: same identity, and nothing
    that was recorded in [g] is lost or changed. *)
Definition extends (g g' : Game) : Prop :=
  game_id g' = game_id g
  ∧ game_name g' = game_name g
  ∧ createdAt g' = createdAt g
  ∧ players g `prefix_of` players g'
  ∧ moves g `prefix_of` moves g'
  ∧ (∀ rc p, cell_at (board g) rc = Some (Some p) →
             cell_at (board g') rc = Some (Some p))
  ∧ (∀ w, winnerId g = Some w → winnerId g' = Some w).

(** The filter of [listGames]: the wanted status, or none. *)
Definition has_status (wanted : option GameStatus) (g : Game) : Prop :=
  match wanted with
  | Some st => status g = st
  | None => True
  end.

#[global] Instance has_status_dec wanted g : Decision (has_status wanted g) :=
  match wanted as w return Decision (has_status w g) with
  | Some st => decide (status g = st)
  | None => left I
  end.

(** Newest first. *)
Definition not_older (a b : Game) : Prop := (createdAt b ≤ createdAt a)%Z.


(** ** The player model of the service ([src/models/player.ts])

    The two methods of [PlayerModel] that the service calls, on the
    [Map] of the model. What [recordGameResult] writes into the stored
    player (counters, derived statistics, the date of the update) is left
    open: [recorded] stands for it. *)
Module PlayerModel.
Section with_stats.

Context {StoredPlayer : Type}.
Variable recorded :
  GameService.GameResult → nat → StoredPlayer → StoredPlayer.

Definition getPlayerById (playerId : string)
    (players : gmap string StoredPlayer) : option StoredPlayer :=
  players !! playerId.

(** [None] is the exception "Player not found". *)
Definition recordGameResult (playerId : string)
    (result : GameService.GameResult) (moves : nat)
    (players : gmap string StoredPlayer)
  : option StoredPlayer * gmap string StoredPlayer :=
  match getPlayerById playerId players with
  | None => (None, players)
  | Some player =>
      let player := recorded result moves player in
      (Some player, <[playerId := player]> players)
  end.

End with_stats.
End PlayerModel.

(** The states of a [GameService] that its public methods produce from
    the state that the constructor sets up, a new [GameModel] and a new
    [PlayerModel]. [createGame] of the service either throws before it
    does anything or does what [createGame] of the model does; the
    methods that only read (the lookups, the listings, the counters) leave
    the state as it is. *)
Section service_states.

Context {StoredPlayer : Type}.
Variable recorded :
  GameService.GameResult → nat → StoredPlayer → StoredPlayer.

Inductive service_reachable
  : GameService.ServiceState (gmap string StoredPlayer) → Prop :=
  | new_service :
      service_reachable
        {| GameService.gameModel := ∅; GameService.playerModel := ∅ |}
  | after_createGame env name st :
      service_reachable st →
      service_reachable
        (GameService.on_games (GameModel.createGame env name) st).2
  | after_joinGame order env gameId player st :
      service_reachable st →
      key_order order (GameService.gameModel st) →
      service_reachable
        (GameService.joinGame PlayerModel.getPlayerById
           order env gameId player st).2
  | after_makeMove env gameId playerId row col st :
      service_reachable st →
      service_reachable
        (GameService.makeMove (PlayerModel.recordGameResult recorded)
           env gameId playerId row col st).2
  | after_deleteGame gameId st :
      service_reachable st →
      service_reachable
        (GameService.on_games (GameService.deleteGame gameId) st).2.

End service_states.

(** ** Further examples *)

(** G1, which Alice has won, and G2, opened after it. *)
Definition two_games : list Call :=
  alice_wins ++ [ CreateGame (env_at "G2" 3000) (Some "G2") ].

(** G1, which has ended in a draw, and G2, opened after it. *)
Definition drawn_and_open : list Call :=
  nobody_wins ++ [ CreateGame (env_at "G2" 3000) (Some "G2") ].

(** What is left to play after Alice's first move, and a second game. *)
Definition rest_of_the_game : list Call :=
  [ MakeMove (env_at "m2" 1200) "G1" "B" 1 0;
    MakeMove (env_at "m3" 1300) "G1" "A" 0 1;
    MakeMove (env_at "m4" 1400) "G1" "B" 1 1;
    MakeMove (env_at "m5" 1500) "G1" "A" 0 2;
    CreateGame (env_at "G2" 3000) (Some "G2") ].

(** G1 and G2 are opened, and then G1 is played to the end. *)
Definition two_opened : list Call :=
  opened ++ [ CreateGame (env_at "G2" 3000) (Some "G2") ].

Definition game_after_opening : list Call :=
  [ JoinGame (env_at "u1" 1010) "G1" alice;
    JoinGame (env_at "u2" 1020) "G1" bob;
    MakeMove (env_at "m1" 1100) "G1" "A" 0 0;
    MakeMove (env_at "m2" 1200) "G1" "B" 1 0;
    MakeMove (env_at "m3" 1300) "G1" "A" 0 1;
    MakeMove (env_at "m4" 1400) "G1" "B" 1 1;
    MakeMove (env_at "m5" 1500) "G1" "A" 0 2;
    DeleteGame "G1" ].

(** Calls on the finished game G1, and a second game. *)
Definition after_the_end : list Call :=
  [ JoinGame (env_at "u3" 1600) "G1" bob;
    MakeMove (env_at "m6" 1700) "G1" "B" 2 2;
    CreateGame (env_at "G2" 3000) (Some "G2");
    MakeMove (env_at "m7" 1800) "G1" "A" 2 0 ].

(** A stand-in for the player model, as the tests of the service use
    one: it knows a fixed list of ids and logs the calls of
    [recordGameResult] for them; for any other id [getPlayerById] returns
    [null] and [recordGameResult] throws. *)
Definition PlayerLog : Type :=
  list string * list (string * GameService.GameResult * nat).

Definition logged_getPlayerById (playerId : string) (ps : PlayerLog)
  : option string :=
  if decide (playerId ∈ ps.1) then Some playerId else None.

Definition logged_recordGameResult (playerId : string)
    (result : GameService.GameResult) (playerMoves : nat) (ps : PlayerLog)
  : option string * PlayerLog :=
  if decide (playerId ∈ ps.1)
  then (Some playerId, (ps.1, ps.2 ++ [ (playerId, result, playerMoves) ]))
  else (None, ps).

Definition alice_and_bob : PlayerLog := ([ "A"; "B" ], []).

(** G1 with both players, and G2, opened after it. *)
Definition lobby_and_open : list Call :=
  lobby ++ [ CreateGame (env_at "G2" 3000) None ].

Definition middle_column_board : GameBoard :=
  [ [Some "A"; Some "B"; Some "A"];
    [None; Some "B"; Some "A"];
    [None; Some "B"; None] ].

(** ** Properties of the rules *)

Arguments checkWinCondition : simpl never.
Arguments isDraw : simpl never.

Ltac run_M :=
  unfold mbind, M_bind, mret, M_ret, throw, call, store, remove,
    GameModel.getGameById in *;
  cbn beta iota in *.

Lemma index_at_Some {A} (l : list A) (i : Z) (x : A) :
  index_at l i = Some x ↔ (0 ≤ i)%Z ∧ l !! Z.to_nat i = Some x.
Proof. unfold index_at. case_decide; [tauto | split; [done | tauto]]. Qed.

Lemma index_at_0 {A} (l : list A) : index_at l 0 = l !! 0.
Proof. done. Qed.

Lemma is3x3_cells (b : GameBoard) :
  is3x3 b →
  ∃ c00 c01 c02 c10 c11 c12 c20 c21 c22,
    b = [ [c00; c01; c02]; [c10; c11; c12]; [c20; c21; c22] ].
Proof.
  intros [Hlen Hrows].
  destruct b as [|r0 [|r1 [|r2 [|]]]]; simplify_eq/=.
  apply Forall_cons in Hrows as [H0 Hrows].
  apply Forall_cons in Hrows as [H1 Hrows].
  apply Forall_cons in Hrows as [H2 _].
  destruct r0 as [|? [|? [|? [|]]]]; simplify_eq/=.
  destruct r1 as [|? [|? [|? [|]]]]; simplify_eq/=.
  destruct r2 as [|? [|? [|? [|]]]]; simplify_eq/=.
  by do 9 eexists.
Qed.

Lemma is3x3_createEmptyBoard : is3x3 createEmptyBoard.
Proof. split; [done | by repeat constructor]. Qed.

Lemma is3x3_insert (b : GameBoard) (r c : nat) (cells : list Cell) (v : Cell) :
  is3x3 b → b !! r = Some cells → is3x3 (<[r := <[c := v]> cells]> b).
Proof.
  intros [Hlen Hrows] Hr. split.
  - by rewrite length_insert.
  - apply Forall_insert; [done |]. rewrite length_insert.
    by eapply (Forall_lookup_1 _ _ _ _ Hrows).
Qed.

(** The comparison of an indexed cell is the comparison of the cell. *)
Lemma bool_decide_Some_cell (c v : Cell) :
  bool_decide (Some c = Some v) = bool_decide (c = v).
Proof. apply bool_decide_ext. split; [by intros [= ->] | by intros ->]. Qed.

(** On a well-formed board the scan is the disjunction of the eight line
    tests. *)
Lemma checkWinCondition_3x3 (playerId : string)
    (c00 c01 c02 c10 c11 c12 c20 c21 c22 : Cell) :
  let own (c : Cell) := bool_decide (c = Some playerId) in
  ∃ w,
    checkWinCondition
      [ [c00; c01; c02]; [c10; c11; c12]; [c20; c21; c22] ] playerId = Ok w
    ∧ won w =
        (own c00 && own c01 && own c02 || own c10 && own c11 && own c12
         || own c20 && own c21 && own c22 || own c00 && own c10 && own c20
         || own c01 && own c11 && own c21 || own c02 && own c12 && own c22
         || own c00 && own c11 && own c22 || own c02 && own c11 && own c20).
Proof.
  intros own. unfold checkWinCondition, cell_is. cbn.
  rewrite !bool_decide_Some_cell.
  fold (own c00) (own c01) (own c02) (own c10) (own c11) (own c12)
    (own c20) (own c21) (own c22).
  generalize (own c00) (own c01) (own c02) (own c10) (own c11) (own c12)
    (own c20) (own c21) (own c22).
  intros [] [] [] [] [] [] [] [] []; cbn; eexists; split; reflexivity.
Qed.

Lemma three_in_a_row_3x3 (playerId : string)
    (c00 c01 c02 c10 c11 c12 c20 c21 c22 : Cell) :
  let own (c : Cell) := bool_decide (c = Some playerId) in
  three_in_a_row
    [ [c00; c01; c02]; [c10; c11; c12]; [c20; c21; c22] ] playerId
  ↔ (own c00 && own c01 && own c02 || own c10 && own c11 && own c12
     || own c20 && own c21 && own c22 || own c00 && own c10 && own c20
     || own c01 && own c11 && own c21 || own c02 && own c12 && own c22
     || own c00 && own c11 && own c22 || own c02 && own c11 && own c20)
    = true.
Proof.
  intros own. unfold three_in_a_row, winning_lines, occupies, cell_at.
  rewrite !Exists_cons, Exists_nil, !Forall_cons, !Forall_nil. cbn.
  rewrite !orb_true_iff, !andb_true_iff. unfold own.
  rewrite !bool_decide_eq_true, !(inj_iff Some). tauto.
Qed.

Lemma checkWinCondition_is_Ok (b : GameBoard) (playerId : string) :
  is3x3 b → is_Ok (checkWinCondition b playerId).
Proof.
  intros (c00 & c01 & c02 & c10 & c11 & c12 & c20 & c21 & c22 & ->)%is3x3_cells.
  destruct (checkWinCondition_3x3 playerId c00 c01 c02 c10 c11 c12 c20 c21 c22)
    as (w & Hw & _).
  by exists w.
Qed.

(** The only exception of the two scans is the [TypeError] of a missing
    row. *)
Lemma checkWinCondition_Throw (b : GameBoard) (playerId : string) (e : Error) :
  checkWinCondition b playerId = Throw e → e = ErrTypeError.
Proof.
  unfold checkWinCondition, cell_is. cbn.
  destruct (b !! 0), (b !! 1), (b !! 2); cbn;
    repeat (destruct (bool_decide _); cbn); congruence.
Qed.

Lemma isDraw_Throw (b : GameBoard) (e : Error) :
  isDraw b = Throw e → e = ErrTypeError.
Proof.
  unfold isDraw, cell_is. cbn.
  destruct (b !! 0), (b !! 1), (b !! 2); cbn;
    repeat (destruct (bool_decide _); cbn); congruence.
Qed.

Lemma isDraw_3x3 (c00 c01 c02 c10 c11 c12 c20 c21 c22 : Cell) :
  let b := [ [c00; c01; c02]; [c10; c11; c12]; [c20; c21; c22] ] in
  isDraw b = Ok (bool_decide (board_full b)).
Proof.
  destruct c00, c01, c02, c10, c11, c12, c20, c21, c22; reflexivity.
Qed.

(** On a well-formed board [isDraw] holds exactly when no cell is empty. *)
Lemma isDraw_full (b : GameBoard) :
  is3x3 b → isDraw b = Ok (bool_decide (board_full b)).
Proof.
  intros (c00 & c01 & c02 & c10 & c11 & c12 & c20 & c21 & c22 & ->)%is3x3_cells.
  apply isDraw_3x3.
Qed.

Example getValidMoves_createEmptyBoard :
  getValidMoves createEmptyBoard
  = Ok [ (0, 0); (0, 1); (0, 2); (1, 0); (1, 1); (1, 2); (2, 0); (2, 1); (2, 2) ].
Proof. reflexivity. Qed.

Example getValidMoves_top_row_board :
  getValidMoves top_row_board = Ok [ (1, 2); (2, 0); (2, 1); (2, 2) ].
Proof. reflexivity. Qed.

(** C6. On every 3×3 board and for every player id, [checkWinCondition]
    returns a result, and the result has [won = true] exactly when the
    player occupies the three cells of one of the eight winning lines
    (three rows, three columns, two diagonals); with no such line the
    result has [won = false]. *)
Theorem checkWinCondition_won_iff_line (b : GameBoard) (playerId : string) :
  is3x3 b →
  ∃ w, checkWinCondition b playerId = Ok w
       ∧ (won w = true ↔ three_in_a_row b playerId)
       ∧ (¬ three_in_a_row b playerId → won w = false).
Proof.
  intros (c00 & c01 & c02 & c10 & c11 & c12 & c20 & c21 & c22 & ->)%is3x3_cells.
  destruct (checkWinCondition_3x3 playerId c00 c01 c02 c10 c11 c12 c20 c21 c22)
    as (w & Hw & Hwon).
  exists w. rewrite three_in_a_row_3x3, Hwon. split; [done |].
  split; [done |]. intros Hno. by apply not_true_is_false.
Qed.

(** The scan at a board whose top row belongs to player A. *)
Lemma checkWinCondition_won_iff_line_witness :
  is3x3 top_row_board
  ∧ ∃ w, checkWinCondition top_row_board "A" = Ok w
         ∧ (won w = true ↔ three_in_a_row top_row_board "A")
         ∧ (¬ three_in_a_row top_row_board "A" → won w = false).
Proof.
  assert (is3x3 top_row_board) as H3x3.
  { split; [reflexivity | repeat constructor]. }
  split; [exact H3x3 |].
  exact (checkWinCondition_won_iff_line top_row_board "A" H3x3).
Defined.

Example checkWinCondition_top_row :
  checkWinCondition top_row_board "A"
  = Ok {| won := true; condition := Some row_line; position := Some 0 |}.
Proof. reflexivity. Qed.

Example checkWinCondition_no_line :
  checkWinCondition top_row_board "B"
  = Ok {| won := false; condition := None; position := None |}.
Proof. reflexivity. Qed.

(** ** Properties of the methods *)

(** What a successful [makeMove] has checked and done. *)
Lemma makeMove_Ok_inv env gameId playerId row col games game' move games' :
  GameModel.makeMove env gameId playerId row col games
    = (Ok (game', move), games') →
  ∃ game cells w,
    games !! gameId = Some game
    ∧ status game = active
    ∧ currentPlayerId game = Some playerId
    ∧ (0 ≤ row ≤ 2)%Z ∧ (0 ≤ col ≤ 2)%Z
    ∧ board game !! Z.to_nat row = Some cells
    ∧ cells !! Z.to_nat col = Some None
    ∧ move = move_record env gameId playerId row col
    ∧ games' = <[gameId := game']> games
    ∧ board game' =
        <[Z.to_nat row := <[Z.to_nat col := Some playerId]> cells]> (board game)
    ∧ moves game' = moves game ++ [move]
    ∧ players game' = players game
    ∧ checkWinCondition (board game') playerId = Ok w
    ∧ (won w = true ∧ status game' = completed
         ∧ winnerId game' = Some playerId
         ∧ currentPlayerId game' = Some playerId
       ∨ won w = false ∧ isDraw (board game') = Ok true
         ∧ status game' = draw
         ∧ winnerId game' = winnerId game
         ∧ currentPlayerId game' = Some playerId
       ∨ won w = false ∧ isDraw (board game') = Ok false
         ∧ status game' = active
         ∧ winnerId game' = winnerId game
         ∧ ∃ next,
             index_at (players game)
               ((findIndex (λ p, player_id p = playerId) (players game) + 1)
                  `rem` Z.of_nat (length (players game)))%Z = Some next
             ∧ currentPlayerId game' = Some (player_id next)).
Proof.
  intros H. unfold GameModel.makeMove in H. run_M.
  destruct (games !! gameId) as [game|] eqn:Hg; [|done].
  repeat case_decide; try done.
  destruct (index_at (board game) row) as [cells|] eqn:Hrow; [|done].
  case_decide as Hcell; [done |].
  destruct (find _ (players game)) as [player|]; [|done].
  apply index_at_Some in Hrow as [? Hrow], Hcell as [? Hcell].
  fold (move_record env gameId playerId row col) in H.
  set (game1 := set_moves _ _) in H.
  destruct (checkWinCondition (board game1) playerId) as [w|] eqn:Hw; [|done].
  exists game, cells, w.
  destruct (won w) eqn:Hwon.
  { simplify_eq. rewrite insert_insert_eq.
    repeat split; try done; try lia. by left. }
  destruct (isDraw (board game1)) as [[]|] eqn:Hfull; [| |done].
  { simplify_eq. rewrite insert_insert_eq.
    repeat split; try done; try lia. by right; left. }
  destruct (index_at (players game1) _) as [next|] eqn:Hnext; [|done].
  simplify_eq. rewrite insert_insert_eq.
  repeat split; try done; try lia.
  right; right. repeat split; try done. by exists next.
Qed.

(** The entry after the one that [find] returns exists. *)
Lemma next_player_defined {A} (P : A → Prop) `{∀ x, Decision (P x)}
    (l : list A) (x : A) :
  find P l = Some x →
  is_Some (index_at l ((findIndex P l + 1) `rem` Z.of_nat (length l))%Z).
Proof.
  unfold find, findIndex.
  destruct (list_find P l) as [[i y]|] eqn:Hfind; [|done].
  intros _. apply list_find_Some in Hfind as (Hi%lookup_lt_Some & _). cbn.
  pose proof (Z.rem_bound_pos (Z.of_nat i + 1) (Z.of_nat (length l))
                ltac:(lia) ltac:(lia)) as [Hlo Hhi].
  unfold index_at. rewrite decide_True by done.
  apply lookup_lt_is_Some. lia.
Qed.

(** Every error that [makeMove] throws itself is thrown before the first
    assignment. *)
Lemma makeMove_thrown_unchanged env gameId playerId row col games e games' :
  GameModel.makeMove env gameId playerId row col games = (Throw e, games') →
  e ≠ ErrTypeError →
  games' = games ∧ e ∈ thrown_by_makeMove.
Proof.
  intros H Hne. unfold GameModel.makeMove in H. run_M.
  assert (∀ e0, e0 ∈ thrown_by_makeMove →
            (Throw e0, games) = (@Throw (Game * Move) e, games') →
            games' = games ∧ e ∈ thrown_by_makeMove) as Hthrown.
  { by intros e0 He0 [= <- <-]. }
  destruct (games !! gameId) as [game|] eqn:Hg;
    [|eapply Hthrown; [|done]; repeat constructor].
  case_decide; [eapply Hthrown; [|done]; repeat constructor |].
  case_decide; [eapply Hthrown; [|done]; repeat constructor |].
  case_decide; [eapply Hthrown; [|done]; repeat constructor |].
  destruct (index_at (board game) row) as [cells|] eqn:Hrow; [|congruence].
  case_decide as Hcell; [eapply Hthrown; [|done]; repeat constructor |].
  destruct (find _ (players game)) as [player|];
    [|eapply Hthrown; [|done]; repeat constructor].
  set (game1 := set_moves _ _) in H.
  destruct (checkWinCondition (board game1) playerId) as [w|] eqn:Hw;
    [|apply checkWinCondition_Throw in Hw; congruence].
  destruct (won w); [done |].
  destruct (isDraw (board game1)) as [[]|] eqn:Hfull;
    [done | |apply isDraw_Throw in Hfull; congruence].
  destruct (index_at (players game1) _) as [next|] eqn:Hnext;
    [done | congruence].
Qed.

(** On well-formed games [makeMove] reads no property of [undefined]. *)
Lemma makeMove_no_TypeError env gameId playerId row col games e games' :
  games_ok games →
  GameModel.makeMove env gameId playerId row col games = (Throw e, games') →
  e ≠ ErrTypeError.
Proof.
  intros Hok H. unfold GameModel.makeMove in H. run_M.
  destruct (games !! gameId) as [game|] eqn:Hg; [|congruence].
  destruct (Hok _ _ Hg) as [H3x3 _].
  repeat case_decide; try congruence.
  destruct (index_at (board game) row) as [cells|] eqn:Hrow.
  2:{ unfold index_at in Hrow. rewrite decide_True in Hrow by lia.
      apply lookup_ge_None in Hrow. destruct H3x3 as [Hlen _]. lia. }
  case_decide as Hcell; [congruence |].
  destruct (find _ (players game)) as [player|] eqn:Hfind; [|congruence].
  apply index_at_Some in Hrow as [? Hrow].
  set (game1 := set_moves _ _) in H.
  assert (is3x3 (board game1)) as H3x3' by by apply is3x3_insert.
  destruct (checkWinCondition_is_Ok (board game1) playerId H3x3') as [w Hw].
  rewrite Hw in H. destruct (won w); [done |].
  rewrite (isDraw_full _ H3x3') in H.
  destruct (bool_decide _); [done |].
  destruct (next_player_defined _ _ _ Hfind) as [next Hnext].
  change (players game1) with (players game) in H.
  rewrite Hnext in H. done.
Qed.

(** *** The methods keep the games well formed *)

Lemma games_ok_insert games gameId game :
  games_ok games → game_ok game → games_ok (<[gameId := game]> games).
Proof. intros. by apply map_Forall_insert_2. Qed.

Lemma createGame_ok env name games :
  games_ok games → games_ok (GameModel.createGame env name games).2.
Proof.
  intros Hok. unfold GameModel.createGame. run_M. cbn.
  apply games_ok_insert; [done |].
  split; [apply is3x3_createEmptyBoard | done].
Qed.

Lemma joinGame_ok env gameId player games :
  games_ok games → games_ok (GameModel.joinGame env gameId player games).2.
Proof.
  intros Hok. unfold GameModel.joinGame. run_M.
  destruct (games !! gameId) as [game|] eqn:Hg; [|done].
  destruct (Hok _ _ Hg) as [Hboard Hcur].
  repeat case_decide; try done; cbn in *.
  - rewrite index_at_0.
    destruct (players game ++ [player]) as [|first rest] eqn:Hplayers;
      [by destruct (players game) |].
    cbn. rewrite !insert_insert_eq. apply games_ok_insert; [done |].
    split; [done |]. cbn. split; done.
  - rewrite !insert_insert_eq. by apply games_ok_insert.
Qed.

Lemma makeMove_ok env gameId playerId row col games :
  games_ok games →
  games_ok (GameModel.makeMove env gameId playerId row col games).2.
Proof.
  intros Hok. unfold GameModel.makeMove. run_M.
  destruct (games !! gameId) as [game|] eqn:Hg; [|done].
  destruct (Hok _ _ Hg) as [Hboard Hcur].
  repeat case_decide; try done.
  destruct (index_at (board game) row) as [cells|] eqn:Hrow; [|done].
  case_decide as Hcell; [done |].
  destruct (find _ (players game)) as [player|]; [|done].
  apply index_at_Some in Hrow as [? Hrow].
  set (game1 := set_moves _ _).
  assert (game_ok game1) as Hok1.
  { split; [by apply is3x3_insert | done]. }
  destruct (checkWinCondition (board game1) playerId) as [w|] eqn:Hw;
    [|by apply games_ok_insert].
  destruct (won w).
  { cbn. rewrite insert_insert_eq. apply games_ok_insert; [done |].
    split; [apply Hok1 |]. cbn. split; [congruence | done]. }
  destruct (isDraw (board game1)) as [[]|] eqn:Hfull;
    [| |by apply games_ok_insert].
  { cbn. rewrite insert_insert_eq. apply games_ok_insert; [done |].
    split; [apply Hok1 |]. cbn. split; [congruence | done]. }
  destruct (index_at (players game1) _) as [next|] eqn:Hnext;
    [|by apply games_ok_insert].
  cbn. rewrite insert_insert_eq. apply games_ok_insert; [done |].
  split; [apply Hok1 |]. cbn. split; [done | congruence].
Qed.

Lemma deleteGame_ok gameId games :
  games_ok games → games_ok (GameModel.deleteGame gameId games).2.
Proof.
  intros Hok. unfold GameModel.deleteGame. run_M.
  destruct (games !! gameId) as [game|] eqn:Hg; [|done].
  cbn. by apply map_Forall_delete.
Qed.

Lemma reachable_ok games : reachable games → games_ok games.
Proof.
  induction 1 as [|games c _ IH]; [apply map_Forall_empty |].
  destruct c; cbn;
    auto using createGame_ok, joinGame_ok, makeMove_ok, deleteGame_ok.
Qed.

Lemma reachable_run_calls (cs : list Call) : reachable (run_calls cs).
Proof.
  unfold run_calls. induction cs as [|c cs IH] using rev_ind.
  - constructor.
  - rewrite foldl_app. by constructor.
Qed.

(** ** The running example *)

Example scenario_one_joined : run_calls one_joined !! "G1" = Some one_joined_game.
Proof. vm_compute. reflexivity. Qed.

(** Scenario A: the second join starts the game and the first player is
    to move. *)
Example scenario_lobby : run_calls lobby !! "G1" = Some lobby_game.
Proof. vm_compute. reflexivity. Qed.

(** Scenario C: nine moves without a line end in a draw. *)
Example scenario_nobody_wins :
  ∃ g, run_calls nobody_wins !! "G1" = Some g
       ∧ status g = draw
       ∧ winnerId g = None
       ∧ board g = [ [Some "A"; Some "B"; Some "A"];
                     [Some "A"; Some "B"; Some "B"];
                     [Some "B"; Some "A"; Some "A"] ]
       ∧ length (moves g) = 9.
Proof. eexists. split; [vm_compute; reflexivity |]. done. Qed.

(** Scenario E: a third join finds the game started. *)
Example scenario_third_join :
  GameModel.joinGame (env_at "u3" 1030) "G1" alice (run_calls lobby)
  = (Throw ErrNotAccepting, run_calls lobby).
Proof. vm_compute. reflexivity. Qed.

(** ** The game state machine *)

(** C1, as the specification states it, fails on the game that Alice
    wins with the top row: the winning [makeMove] returns a game that is
    [completed] and whose [currentPlayerId] is still Alice's id, and that
    game is what the map holds afterwards. *)
Lemma finished_game_keeps_currentPlayerId :
  ∃ g move,
    reachable (run_calls before_win)
    ∧ GameModel.makeMove (env_at "m5" 1500) "G1" "A" 0 2 (run_calls before_win)
      = (Ok (g, move), run_calls alice_wins)
    ∧ reachable (run_calls alice_wins)
    ∧ run_calls alice_wins !! "G1" = Some g
    ∧ status g = completed
    ∧ currentPlayerId g = Some "A"
    ∧ ¬ (currentPlayerId g ≠ None ↔ status g = active).
Proof.
  eexists _, _. split; [apply reachable_run_calls |].
  split; [vm_compute; reflexivity |].
  split; [apply reachable_run_calls |].
  split; [vm_compute; reflexivity |].
  split; [reflexivity |]. split; [reflexivity |].
  cbn. intros [Hactive _]. by specialize (Hactive ltac:(done)).
Qed.

(** C1 (amended). In every map of games reachable through the methods of
    the model, [currentPlayerId] is null exactly while the game is
    [waiting], so it is non-null whenever the game is [active]; and a
    successful [makeMove] that ends the game ([completed] or [draw])
    leaves [currentPlayerId] at the id of the player who moved. *)
Theorem currentPlayerId_null_iff_waiting games :
  reachable games →
  (∀ gameId g, games !! gameId = Some g →
     (currentPlayerId g = None ↔ status g = waiting)
     ∧ (status g = active → currentPlayerId g ≠ None))
  ∧ (∀ env gameId playerId row col game' move games',
       GameModel.makeMove env gameId playerId row col games
         = (Ok (game', move), games') →
       status game' = completed ∨ status game' = draw →
       currentPlayerId game' = Some playerId).
Proof.
  intros Hreach%reachable_ok. split.
  - intros gameId g Hg. destruct (Hreach _ _ Hg) as [_ Hcur].
    split; [done |]. intros Hactive Hnone%Hcur. congruence.
  - intros env gameId playerId row col game' move games' Hmove Hend.
    apply makeMove_Ok_inv in Hmove
      as (game & cells & w & _ & _ & _ & _ & _ & _ & _ & _ & _ & _ & _ & _
          & _ & Hout).
    destruct Hout as [(_ & _ & _ & ?)|[(_ & _ & _ & _ & ?)|(_ & _ & Hact & _)]];
      [done | done |].
    destruct Hend; congruence.
Qed.

(** The invariant at the game one move before Alice wins. *)
Lemma currentPlayerId_null_iff_waiting_witness :
  reachable (run_calls before_win)
  ∧ (∀ gameId g, run_calls before_win !! gameId = Some g →
       (currentPlayerId g = None ↔ status g = waiting)
       ∧ (status g = active → currentPlayerId g ≠ None))
  ∧ (∀ env gameId playerId row col game' move games',
       GameModel.makeMove env gameId playerId row col (run_calls before_win)
         = (Ok (game', move), games') →
       status game' = completed ∨ status game' = draw →
       currentPlayerId game' = Some playerId).
Proof.
  split; [apply reachable_run_calls |].
  apply (currentPlayerId_null_iff_waiting (run_calls before_win)).
  apply reachable_run_calls.
Defined.

(** A waiting game that already holds two players is full. *)
Lemma joinGame_full games env gameId player game :
  games !! gameId = Some game →
  status game = waiting →
  2 ≤ length (players game) →
  GameModel.joinGame env gameId player games = (Throw ErrGameFull, games)
  ∧ kind ErrGameFull = Conflict.
Proof.
  intros Hg Hst Hlen. unfold GameModel.joinGame. run_M. rewrite Hg.
  repeat case_decide; done.
Qed.

(** The status is checked before the number of players. *)
Lemma joinGame_not_waiting games env gameId player game :
  games !! gameId = Some game →
  status game ≠ waiting →
  GameModel.joinGame env gameId player games = (Throw ErrNotAccepting, games)
  ∧ kind ErrNotAccepting = InvalidState.
Proof.
  intros Hg Hst. unfold GameModel.joinGame. run_M. rewrite Hg.
  repeat case_decide; done.
Qed.

(** C2. The code at the input where the claim fails: Alice has joined the
    waiting game G1 and joins it again; [joinGame] does not throw, it
    appends her a second time and starts the game with Alice against
    herself. *)
Theorem joinGame_accepts_duplicate_player :
  ∃ game game',
    run_calls one_joined !! "G1" = Some game
    ∧ status game = waiting
    ∧ players game = [alice]
    ∧ GameModel.joinGame (env_at "u2" 1020) "G1" alice (run_calls one_joined)
      = (Ok game', <["G1" := game']> (run_calls one_joined))
    ∧ players game' = [alice; alice]
    ∧ status game' = active
    ∧ currentPlayerId game' = Some "A".
Proof.
  eexists _, _. split; [vm_compute; reflexivity |].
  split; [reflexivity |]. split; [reflexivity |].
  split; [vm_compute; reflexivity |]. done.
Qed.

(** The model alone deletes a game whatever its status. *)
Lemma GameModel_deleteGame_any_status games gameId game :
  games !! gameId = Some game →
  GameModel.deleteGame gameId games = (Ok (), delete gameId games).
Proof. intros Hg. unfold GameModel.deleteGame. run_M. by rewrite Hg. Qed.

(** C3. [deleteGame] of the service fails with "Game not found" when the
    id is absent; on an [active] game it fails with "Cannot delete an
    active game" (an invalid-state error), leaves the map as it was, and
    the game is still returned by [getGameById]; on a [waiting],
    [completed] or [draw] game it succeeds and removes the game; and it
    succeeds in no other case. *)
Theorem deleteGame_protects_active_games games gameId :
  (games !! gameId = None →
     GameService.deleteGame gameId games = (Throw ErrGameNotFound, games)
     ∧ kind ErrGameNotFound = NotFound)
  ∧ (∀ game, games !! gameId = Some game → status game = active →
       GameService.deleteGame gameId games = (Throw ErrDeleteActive, games)
       ∧ kind ErrDeleteActive = InvalidState
       ∧ GameModel.getGameById gameId
           (GameService.deleteGame gameId games).2 = (Ok (Some game), games))
  ∧ (∀ game, games !! gameId = Some game →
       status game = waiting ∨ status game = completed ∨ status game = draw →
       GameService.deleteGame gameId games = (Ok (), delete gameId games))
  ∧ (is_Ok (GameService.deleteGame gameId games).1 →
       ∃ game, games !! gameId = Some game
               ∧ (status game = waiting ∨ status game = completed
                  ∨ status game = draw)).
Proof.
  unfold GameService.deleteGame, GameModel.deleteGame. run_M.
  destruct (games !! gameId) as [game|] eqn:Hg.
  - split; [done |]. split; [| split].
    + intros ? [= <-] Hact. rewrite decide_True by done. cbn. by rewrite Hg.
    + intros ? [= <-] Hst. rewrite decide_False; [by rewrite Hg |].
      destruct Hst as [-> | [-> | ->]]; done.
    + case_decide as Hst; [by intros [? ?] |]. intros _. exists game.
      split; [done |]. destruct (status game); auto. done.
  - split; [done |]. split; [done |]. split; [done |]. by intros [? ?].
Qed.

(** Scenario F: the started game G1 cannot be deleted and is still there. *)
Lemma deleteGame_protects_active_games_witness :
  run_calls lobby !! "G1" = Some lobby_game
  ∧ status lobby_game = active
  ∧ GameService.deleteGame "G1" (run_calls lobby)
    = (Throw ErrDeleteActive, run_calls lobby)
  ∧ kind ErrDeleteActive = InvalidState
  ∧ GameModel.getGameById "G1"
      (GameService.deleteGame "G1" (run_calls lobby)).2
    = (Ok (Some lobby_game), run_calls lobby).
Proof.
  assert (run_calls lobby !! "G1" = Some lobby_game) as Hg
    by (vm_compute; reflexivity).
  split; [exact Hg |]. split; [reflexivity |].
  exact (proj1 (proj2 (deleteGame_protects_active_games (run_calls lobby) "G1"))
           lobby_game Hg eq_refl).
Defined.

(** C5. A successful [makeMove] on a reachable map has exactly one of
    three outcomes, told apart by the status of the returned game:
    [completed] exactly when the scan for the mover finds a line, [draw]
    exactly when it finds none and the board is full, [active] exactly
    when it finds none and a cell is still empty. So a full board is never
    followed by a plain change of turn, a full board with a line is a win,
    and when the game goes on the turn passes to the next entry of
    [players]. *)
Theorem makeMove_exactly_one_outcome
    games env gameId playerId row col game' move games' :
  reachable games →
  GameModel.makeMove env gameId playerId row col games
    = (Ok (game', move), games') →
  ∃ w,
    checkWinCondition (board game') playerId = Ok w
    ∧ (status game' = completed ↔ won w = true)
    ∧ (status game' = draw ↔ won w = false ∧ board_full (board game'))
    ∧ (status game' = active ↔ won w = false ∧ ¬ board_full (board game'))
    ∧ (board_full (board game') →
         status game' = completed ∨ status game' = draw)
    ∧ (status game' = active →
         ∃ next,
           index_at (players game')
             ((findIndex (λ p, player_id p = playerId) (players game') + 1)
                `rem` Z.of_nat (length (players game')))%Z = Some next
           ∧ currentPlayerId game' = Some (player_id next)).
Proof.
  intros Hreach%reachable_ok Hmove.
  apply makeMove_Ok_inv in Hmove
    as (game & cells & w & Hg & _ & _ & _ & _ & Hrow & _ & _ & _ & Hboard
        & _ & Hplayers & Hw & Hout).
  destruct (Hreach _ _ Hg) as [H3x3 _].
  pose proof (is3x3_insert _ _ (Z.to_nat col) _ (Some playerId) H3x3 Hrow)
    as H3x3'.
  rewrite <- Hboard in H3x3'. rewrite isDraw_full in Hout by done.
  rewrite Hplayers. exists w. split; [done |].
  destruct Hout as [(Hwon & Hst & _)
                   |[(Hwon & [= Hfull%bool_decide_eq_true] & Hst & _)
                    |(Hwon & [= Hfull%bool_decide_eq_false] & Hst & _
                      & Hnext)]];
    rewrite Hwon, Hst.
  - split; [done |]. split; [split; [done | by intros [? _]] |].
    split; [split; [done | by intros [? _]] |]. split; [by left | done].
  - split; [done |]. split; [done |].
    split; [split; [done | by intros [_ ?]] |]. split; [by right | done].
  - split; [done |]. split; [split; [done | by intros [_ ?]] |].
    split; [done |]. split; [done |]. by intros _.
Qed.

(** The move with which Alice completes the top row. *)
Lemma makeMove_exactly_one_outcome_witness :
  ∃ game' move games',
    reachable (run_calls before_win)
    ∧ GameModel.makeMove (env_at "m5" 1500) "G1" "A" 0 2 (run_calls before_win)
      = (Ok (game', move), games')
    ∧ status game' = completed
    ∧ ∃ w, checkWinCondition (board game') "A" = Ok w ∧ won w = true.
Proof.
  eexists _, _, _.
  assert (GameModel.makeMove (env_at "m5" 1500) "G1" "A" 0 2
            (run_calls before_win) = (Ok _, _)) as Hmove
    by (vm_compute; reflexivity).
  split; [apply reachable_run_calls |]. split; [exact Hmove |].
  destruct (makeMove_exactly_one_outcome _ _ _ _ _ _ _ _ _
              (reachable_run_calls before_win) Hmove)
    as (w & Hw & Hcompleted & _).
  split; [reflexivity |]. exists w. split; [exact Hw |].
  by apply Hcompleted.
Defined.

(** C7. A [makeMove] that fails with one of the errors that it throws
    itself (game not found, game not active, not the caller's turn,
    coordinates outside 0..2, cell occupied, player not in the game)
    leaves the map, and so every field of every game in it, exactly as it
    was; and on a reachable map every failure of [makeMove] is one of
    these, so no failed call leaves a partial change. *)
Theorem makeMove_failure_is_atomic
    games env gameId playerId row col e games' :
  GameModel.makeMove env gameId playerId row col games = (Throw e, games') →
  (e ∈ thrown_by_makeMove → games' = games)
  ∧ (reachable games → e ∈ thrown_by_makeMove ∧ games' = games).
Proof.
  intros Hmove. split.
  - intros He. eapply makeMove_thrown_unchanged; [done |].
    intros ->. unfold thrown_by_makeMove in He.
    repeat (apply elem_of_cons in He as [[=]|He]).
    by apply elem_of_nil in He.
  - intros Hreach%reachable_ok.
    destruct (makeMove_thrown_unchanged _ _ _ _ _ _ _ _ Hmove); [|done].
    by eapply makeMove_no_TypeError.
Qed.

(** Scenario D: Bob plays the cell that Alice has taken. *)
Lemma makeMove_failure_is_atomic_witness :
  ∃ e games',
    GameModel.makeMove (env_at "m2" 1200) "G1" "B" 0 0 (run_calls first_move)
      = (Throw e, games')
    ∧ e = ErrCellOccupied
    ∧ reachable (run_calls first_move)
    ∧ e ∈ thrown_by_makeMove
    ∧ games' = run_calls first_move.
Proof.
  eexists _, _.
  assert (GameModel.makeMove (env_at "m2" 1200) "G1" "B" 0 0
            (run_calls first_move) = (Throw _, _)) as Hmove
    by (vm_compute; reflexivity).
  split; [exact Hmove |]. split; [reflexivity |].
  split; [apply reachable_run_calls |].
  exact (proj2 (makeMove_failure_is_atomic _ _ _ _ _ _ _ _ Hmove)
           (reachable_run_calls first_move)).
Defined.

(** Reachability matters for the second part: on a game whose board lacks
    its second row, which no method produces, the cell is assigned and
    the move is logged before the scan of the rows throws. *)
Example makeMove_on_short_board :
  ∃ game',
    GameModel.makeMove (env_at "m1" 1100) "G1" "A" 0 0
      {[ "G1" := short_board_game ]}
    = (Throw ErrTypeError, {[ "G1" := game' ]})
    ∧ board game' = [ [Some "A"; None; None] ]
    ∧ length (moves game') = 1
    ∧ status game' = active.
Proof. eexists. split; [vm_compute; reflexivity |]. done. Qed.

(** C8. On a reachable map, [joinGame] on a [waiting] game that holds one
    player succeeds, appends the second player, makes the game [active]
    and gives the turn to the first-joined player, [players[0]], which is
    not the second player when their ids differ; [joinGame] on a
    [waiting] game without players succeeds and leaves the game [waiting]
    with [currentPlayerId] null. *)
Theorem joinGame_second_player_starts_game games env gameId player game :
  reachable games →
  games !! gameId = Some game →
  status game = waiting →
  (∀ first, players game = [first] →
     ∃ game',
       GameModel.joinGame env gameId player games
         = (Ok game', <[gameId := game']> games)
       ∧ players game' = [first; player]
       ∧ status game' = active
       ∧ currentPlayerId game' = Some (player_id first)
       ∧ (player_id player ≠ player_id first →
            currentPlayerId game' ≠ Some (player_id player)))
  ∧ (players game = [] →
     ∃ game',
       GameModel.joinGame env gameId player games
         = (Ok game', <[gameId := game']> games)
       ∧ players game' = [player]
       ∧ status game' = waiting
       ∧ currentPlayerId game' = None).
Proof.
  intros Hreach%reachable_ok Hg Hst.
  destruct (Hreach _ _ Hg) as [_ Hcur].
  unfold GameModel.joinGame. run_M. rewrite Hg.
  rewrite decide_False by (by intros ?). split.
  - intros first Hplayers. rewrite Hplayers. cbn.
    rewrite decide_False by lia. rewrite decide_True by done.
    rewrite index_at_0. cbn. rewrite !insert_insert_eq.
    eexists. split; [reflexivity |].
    repeat split; try done. cbn. congruence.
  - intros Hplayers. rewrite Hplayers. cbn.
    rewrite decide_False by lia. rewrite decide_False by done. cbn.
    rewrite ?insert_insert_eq. eexists. split; [reflexivity |].
    repeat split; try done. cbn. by apply Hcur.
Qed.

(** Scenario A: Bob joins the game that Alice waits in. *)
Lemma joinGame_second_player_starts_game_witness :
  reachable (run_calls one_joined)
  ∧ run_calls one_joined !! "G1" = Some one_joined_game
  ∧ status one_joined_game = waiting
  ∧ ∃ game',
      GameModel.joinGame (env_at "u2" 1020) "G1" bob (run_calls one_joined)
        = (Ok game', <["G1" := game']> (run_calls one_joined))
      ∧ players game' = [alice; bob]
      ∧ status game' = active
      ∧ currentPlayerId game' = Some "A"
      ∧ (player_id bob ≠ player_id alice →
           currentPlayerId game' ≠ Some (player_id bob)).
Proof.
  assert (run_calls one_joined !! "G1" = Some one_joined_game) as Hg
    by (vm_compute; reflexivity).
  split; [apply reachable_run_calls |]. split; [exact Hg |].
  split; [reflexivity |].
  exact (proj1 (joinGame_second_player_starts_game _ (env_at "u2" 1020) _ bob _
                  (reachable_run_calls one_joined) Hg eq_refl)
           alice eq_refl).
Defined.

(** C9, as the specification states it, fails on Bob's first move: one
    move is stored before the call, and no property of the [Move] object
    that [makeMove] creates holds the number 1. *)
Lemma move_record_has_no_sequence_number :
  ∃ game game' move games',
    run_calls first_move !! "G1" = Some game
    ∧ length (moves game) = 1
    ∧ GameModel.makeMove (env_at "m2" 1200) "G1" "B" 2 2 (run_calls first_move)
      = (Ok (game', move), games')
    ∧ ∀ key value, (key, value) ∈ Move_properties move →
                   value ≠ JsNumber (Z.of_nat (length (moves game))).
Proof.
  eexists _, _, _, _. split; [vm_compute; reflexivity |].
  split; [reflexivity |]. split; [vm_compute; reflexivity |].
  intros key value Hin. cbn in Hin.
  repeat (apply elem_of_cons in Hin as [[= -> ->]|Hin]; [done |]).
  by apply elem_of_nil in Hin.
Qed.

(** C9 (amended). The [Move] object created by a successful [makeMove]
    has six properties: a fresh id, the game id, the player id, the row,
    the column and a timestamp, and no sequence number. It is appended at
    the end of the move log of the game, so its index in the log is the
    number of moves stored before the call. *)
Theorem makeMove_appends_move_record
    games env gameId playerId row col game' move games' :
  GameModel.makeMove env gameId playerId row col games
    = (Ok (game', move), games') →
  ∃ game,
    games !! gameId = Some game
    ∧ Move_properties move =
        [ ("id", JsString (uuidv4 env));
          ("gameId", JsString gameId);
          ("playerId", JsString playerId);
          ("row", JsNumber row);
          ("col", JsNumber col);
          ("timestamp", JsDate (clock env 1)) ]
    ∧ moves game' = moves game ++ [move]
    ∧ moves game' !! length (moves game) = Some move.
Proof.
  intros (game & cells & w & Hg & _ & _ & _ & _ & _ & _ & -> & _ & _ & Hmoves
          & _)%makeMove_Ok_inv.
  exists game. split; [done |]. split; [done |]. split; [done |].
  rewrite Hmoves. by apply list_lookup_middle.
Qed.

(** Bob's first move is the second entry of the log. *)
Lemma makeMove_appends_move_record_witness :
  ∃ game' move games' game,
    GameModel.makeMove (env_at "m2" 1200) "G1" "B" 2 2 (run_calls first_move)
      = (Ok (game', move), games')
    ∧ run_calls first_move !! "G1" = Some game
    ∧ Move_properties move =
        [ ("id", JsString "m2");
          ("gameId", JsString "G1");
          ("playerId", JsString "B");
          ("row", JsNumber 2);
          ("col", JsNumber 2);
          ("timestamp", JsDate 1201) ]
    ∧ moves game' = moves game ++ [move]
    ∧ moves game' !! length (moves game) = Some move.
Proof.
  eexists _, _, _.
  assert (GameModel.makeMove (env_at "m2" 1200) "G1" "B" 2 2
            (run_calls first_move) = (Ok _, _)) as Hmove
    by (vm_compute; reflexivity).
  destruct (makeMove_appends_move_record _ _ _ _ _ _ _ _ _ Hmove)
    as (game & H1 & H2 & H3 & H4).
  exists game. split; [exact Hmove | by repeat split].
Defined.

(** C10. [getGameById] of the model never throws and leaves the map as
    it was: it returns the game stored under the id, and null when the id
    is absent, where [joinGame], [makeMove] and [deleteGame] throw "Game
    not found". *)
Theorem getGameById_never_throws games gameId :
  (∃ found, GameModel.getGameById gameId games = (Ok found, games)
            ∧ found = games !! gameId)
  ∧ (games !! gameId = None →
       GameModel.getGameById gameId games = (Ok None, games)
       ∧ (∀ env player,
            GameModel.joinGame env gameId player games
              = (Throw ErrGameNotFound, games))
       ∧ (∀ env playerId row col,
            GameModel.makeMove env gameId playerId row col games
              = (Throw ErrGameNotFound, games))
       ∧ GameModel.deleteGame gameId games = (Throw ErrGameNotFound, games)
       ∧ kind ErrGameNotFound = NotFound).
Proof.
  split; [by eexists |]. intros Hnone.
  unfold GameModel.joinGame, GameModel.makeMove, GameModel.deleteGame. run_M.
  rewrite Hnone. by repeat split.
Qed.

(** The lookup of a game that was never created. *)
Lemma getGameById_never_throws_witness :
  run_calls lobby !! "G2" = None
  ∧ GameModel.getGameById "G2" (run_calls lobby) = (Ok None, run_calls lobby)
  ∧ (∀ env player,
       GameModel.joinGame env "G2" player (run_calls lobby)
         = (Throw ErrGameNotFound, run_calls lobby))
  ∧ (∀ env playerId row col,
       GameModel.makeMove env "G2" playerId row col (run_calls lobby)
         = (Throw ErrGameNotFound, run_calls lobby))
  ∧ GameModel.deleteGame "G2" (run_calls lobby)
    = (Throw ErrGameNotFound, run_calls lobby)
  ∧ kind ErrGameNotFound = NotFound.
Proof.
  assert (run_calls lobby !! "G2" = None) as Hnone
    by (vm_compute; reflexivity).
  split; [exact Hnone |].
  exact (proj2 (getGameById_never_throws (run_calls lobby) "G2") Hnone).
Defined.

(** The service returns what the model returns, except that it rejects
    the empty id. *)
Lemma GameService_getGameById games gameId :
  GameService.getGameById gameId games
  = if decide (gameId = "") then (Throw ErrInvalidGameId, games)
    else GameModel.getGameById gameId games.
Proof. unfold GameService.getGameById. by case_decide. Qed.

(** ** Further properties of the rules *)

Lemma cell_is_true (b : GameBoard) (r c : nat) (v : Cell) :
  cell_is b r c v = Ok true ↔ cell_at b (r, c) = Some v.
Proof.
  unfold cell_is, cell_at. cbn. destruct (b !! r) as [cells|]; cbn; [|done].
  split; [by intros [= ?%bool_decide_eq_true] |].
  intros H. by rewrite bool_decide_eq_true_2.
Qed.

Lemma and_then_true (x y : Result bool) :
  x &&& y = Ok true ↔ x = Ok true ∧ y = Ok true.
Proof.
  unfold and_then.
  destruct x as [[]|], y as [[]|]; cbn; split; try done; by intros [? ?].
Qed.

(** The index that a loop returns is the first at which the test holds. *)
Lemma first_index_Some (test : nat → Result bool) (range : list nat) (i : nat) :
  first_index test range = Ok (Some i) →
  ∃ before after,
    range = before ++ i :: after
    ∧ test i = Ok true
    ∧ Forall (λ j, test j = Ok false) before.
Proof.
  induction range as [|j range IH]; [done |]. cbn.
  destruct (test j) as [[]|] eqn:Hj; cbn; [| |done].
  - intros [= <-]. by exists [], range.
  - intros (before & after & -> & Hi & Hpre)%IH.
    exists (j :: before), after. by repeat constructor.
Qed.

Lemma first_index_None (test : nat → Result bool) (range : list nat) :
  first_index test range = Ok None →
  Forall (λ j, test j = Ok false) range.
Proof.
  induction range as [|j range IH]; [by constructor |]. cbn.
  destruct (test j) as [[]|] eqn:Hj; cbn; [done | |done].
  intros ?%IH. by constructor.
Qed.

(** The test of a line holds exactly when the player occupies it. *)
Lemma line_test_true (b : GameBoard) (playerId : string)
    (p1 p2 p3 : nat * nat) :
  cell_is b p1.1 p1.2 (Some playerId) &&& cell_is b p2.1 p2.2 (Some playerId)
    &&& cell_is b p3.1 p3.2 (Some playerId) = Ok true
  ↔ occupies b playerId [p1; p2; p3].
Proof.
  rewrite !and_then_true, !cell_is_true. unfold occupies.
  rewrite !Forall_cons, Forall_nil. destruct p1, p2, p3. cbn. tauto.
Qed.

Lemma line_test_false (b : GameBoard) (playerId : string)
    (p1 p2 p3 : nat * nat) :
  cell_is b p1.1 p1.2 (Some playerId) &&& cell_is b p2.1 p2.2 (Some playerId)
    &&& cell_is b p3.1 p3.2 (Some playerId) = Ok false →
  ¬ occupies b playerId [p1; p2; p3].
Proof. intros Hfalse Hocc%line_test_true. congruence. Qed.

(** X1. Whenever [checkWinCondition] returns, on any board: a result
    with [won = true] reports a line that the player occupies, and that
    line is the first occupied one in the order of the scan (rows 0, 1, 2,
    columns 0, 1, 2, main diagonal, other diagonal); a result with
    [won = false] carries no condition and no position. *)
Theorem checkWinCondition_reports_first_line
    (b : GameBoard) (playerId : string) (w : WinResult) :
  checkWinCondition b playerId = Ok w →
  (won w = true →
     ∃ line earlier later,
       reported_line w = Some line
       ∧ winning_lines = earlier ++ line :: later
       ∧ occupies b playerId line
       ∧ Forall (λ l, ¬ occupies b playerId l) earlier)
  ∧ (won w = false → condition w = None ∧ position w = None).
Proof.
  unfold checkWinCondition, mbind, Result_bind.
  pose proof (line_test_true b playerId) as Htrue.
  pose proof (line_test_false b playerId) as Hfalse.
  destruct (first_index _ (seq 0 3)) as [[row|]|] eqn:Hrows; cbv beta iota; [| |done].
  { intros [= <-]. split; [intros _ | done].
    apply first_index_Some in Hrows as (before & after & Hrange & Hrow & Hpre).
    exists [ (row, 0); (row, 1); (row, 2) ].
    destruct before as [|? [|? [|? before']]]; simplify_eq/=.
    - eexists [], _. repeat split; [by apply (Htrue (0,0) (0,1) (0,2)) | done].
    - apply Forall_cons in Hpre as [H0 _].
      eexists [_], _. repeat split; [by apply (Htrue (1,0) (1,1) (1,2)) |].
      repeat constructor. by apply (Hfalse (0,0) (0,1) (0,2)).
    - apply Forall_cons in Hpre as [H0 [H1 _]%Forall_cons].
      eexists [_; _], _.
      repeat split; [by apply (Htrue (2,0) (2,1) (2,2)) |].
      repeat constructor;
        [by apply (Hfalse (0,0) (0,1) (0,2)) | by apply (Hfalse (1,0) (1,1) (1,2))].
    - by destruct before'. }
  apply first_index_None in Hrows.
  apply Forall_cons in Hrows as [R0 [R1 [R2 _]%Forall_cons]%Forall_cons].
  apply (Hfalse (0,0) (0,1) (0,2)) in R0.
  apply (Hfalse (1,0) (1,1) (1,2)) in R1.
  apply (Hfalse (2,0) (2,1) (2,2)) in R2.
  destruct (first_index _ (seq 0 3)) as [[col|]|] eqn:Hcols; cbv beta iota; [| |done].
  { intros [= <-]. split; [intros _ | done].
    apply first_index_Some in Hcols as (before & after & Hrange & Hcol & Hpre).
    exists [ (0, col); (1, col); (2, col) ].
    destruct before as [|? [|? [|? before']]]; simplify_eq/=.
    - eexists [_; _; _], _.
      repeat split; [by apply (Htrue (0,0) (1,0) (2,0)) |].
      by repeat constructor.
    - apply Forall_cons in Hpre as [H0 _].
      eexists [_; _; _; _], _.
      repeat split; [by apply (Htrue (0,1) (1,1) (2,1)) |].
      repeat constructor; try done. by apply (Hfalse (0,0) (1,0) (2,0)).
    - apply Forall_cons in Hpre as [H0 [H1 _]%Forall_cons].
      eexists [_; _; _; _; _], _.
      repeat split; [by apply (Htrue (0,2) (1,2) (2,2)) |].
      repeat constructor; try done;
        [by apply (Hfalse (0,0) (1,0) (2,0)) | by apply (Hfalse (0,1) (1,1) (2,1))].
    - by destruct before'. }
  apply first_index_None in Hcols.
  apply Forall_cons in Hcols as [C0 [C1 [C2 _]%Forall_cons]%Forall_cons].
  apply (Hfalse (0,0) (1,0) (2,0)) in C0.
  apply (Hfalse (0,1) (1,1) (2,1)) in C1.
  apply (Hfalse (0,2) (1,2) (2,2)) in C2.
  destruct (_ &&& _ &&& _) as [[]|] eqn:Hd0 in |- *; cbv beta iota; [| |done].
  { intros [= <-]. split; [intros _ | done].
    eexists _, [_; _; _; _; _; _], _.
    repeat split; [by apply (Htrue (0,0) (1,1) (2,2)) |].
    by repeat constructor. }
  apply (Hfalse (0,0) (1,1) (2,2)) in Hd0.
  destruct (_ &&& _ &&& _) as [[]|] eqn:Hd1 in |- *; cbv beta iota; [| |done].
  { intros [= <-]. split; [intros _ | done].
    eexists _, [_; _; _; _; _; _; _], _.
    repeat split; [by apply (Htrue (0,2) (1,1) (2,0)) |].
    by repeat constructor. }
  intros [= <-]. split; [done | by intros _].
Qed.

(** The scan for player B on a board where B holds the middle column: the
    three rows and the first column come earlier in the scan and are not
    B's. *)
Lemma checkWinCondition_reports_first_line_witness :
  ∃ w,
    checkWinCondition middle_column_board "B" = Ok w
    ∧ won w = true
    ∧ ∃ line earlier later,
        reported_line w = Some line
        ∧ winning_lines = earlier ++ line :: later
        ∧ occupies middle_column_board "B" line
        ∧ Forall (λ l, ¬ occupies middle_column_board "B" l) earlier.
Proof.
  eexists.
  assert (checkWinCondition middle_column_board "B" = Ok _) as Hw
    by reflexivity.
  split; [exact Hw |]. split; [reflexivity |].
  exact (proj1 (checkWinCondition_reports_first_line _ _ _ Hw) eq_refl).
Defined.

Example checkWinCondition_middle_column :
  checkWinCondition middle_column_board "B"
  = Ok {| won := true; condition := Some column_line; position := Some 1 |}.
Proof. reflexivity. Qed.

Lemma getValidMoves_3x3 (c00 c01 c02 c10 c11 c12 c20 c21 c22 : Cell) :
  let b := [ [c00; c01; c02]; [c10; c11; c12]; [c20; c21; c22] ] in
  getValidMoves b = Ok (filter (λ rc, cell_at b rc = Some None) positions)
  ∧ isDraw b
    = Ok (bool_decide (filter (λ rc, cell_at b rc = Some None) positions = [])).
Proof.
  destruct c00, c01, c02, c10, c11, c12, c20, c21, c22; split; reflexivity.
Qed.

Lemma cell_at_positions (b : GameBoard) (rc : nat * nat) (c : Cell) :
  is3x3 b → cell_at b rc = Some c → rc ∈ positions.
Proof.
  intros (c00 & c01 & c02 & c10 & c11 & c12 & c20 & c21 & c22 & ->)%is3x3_cells.
  destruct rc as [[|[|[|r]]] [|[|[|col]]]]; cbn; try done; intros _;
    unfold positions; set_solver.
Qed.

(** X2. On a 3×3 board [getValidMoves] returns the positions of the empty
    cells, each once, in row-major order: row 0 from left to right, then
    row 1, then row 2. *)
Theorem getValidMoves_lists_empty_cells (b : GameBoard) :
  is3x3 b →
  ∃ valid,
    getValidMoves b = Ok valid
    ∧ valid = filter (λ rc, cell_at b rc = Some None) positions
    ∧ (∀ rc, rc ∈ valid ↔ cell_at b rc = Some None)
    ∧ NoDup valid.
Proof.
  intros H3x3. eexists. split; [|split; [reflexivity |]].
  - destruct (is3x3_cells b H3x3)
      as (c00 & c01 & c02 & c10 & c11 & c12 & c20 & c21 & c22 & ->).
    apply getValidMoves_3x3.
  - split.
    + intros rc. rewrite list_elem_of_filter. split; [by intros [? _] |].
      intros Hcell. split; [done |]. by eapply cell_at_positions.
    + apply NoDup_filter. unfold positions. by compute_done.
Qed.

(** The four empty cells of the board whose top row belongs to A. *)
Lemma getValidMoves_lists_empty_cells_witness :
  is3x3 top_row_board
  ∧ ∃ valid,
      getValidMoves top_row_board = Ok valid
      ∧ valid = filter (λ rc, cell_at top_row_board rc = Some None) positions
      ∧ (∀ rc, rc ∈ valid ↔ cell_at top_row_board rc = Some None)
      ∧ NoDup valid.
Proof.
  assert (is3x3 top_row_board) as H3x3.
  { split; [reflexivity | repeat constructor]. }
  split; [exact H3x3 |].
  exact (getValidMoves_lists_empty_cells top_row_board H3x3).
Defined.

Example getValidMoves_top_row :
  getValidMoves top_row_board = Ok [ (1, 2); (2, 0); (2, 1); (2, 2) ].
Proof. reflexivity. Qed.

(** X3. On a 3×3 board [isDraw] holds exactly when [getValidMoves] has
    nothing to offer. *)
Theorem isDraw_iff_no_valid_moves (b : GameBoard) :
  is3x3 b →
  ∃ full valid,
    isDraw b = Ok full
    ∧ getValidMoves b = Ok valid
    ∧ (full = true ↔ valid = []).
Proof.
  intros (c00 & c01 & c02 & c10 & c11 & c12 & c20 & c21 & c22 & ->)%is3x3_cells.
  destruct (getValidMoves_3x3 c00 c01 c02 c10 c11 c12 c20 c21 c22)
    as [Hvalid Hfull].
  eexists _, _. split; [exact Hfull |]. split; [exact Hvalid |].
  apply bool_decide_eq_true.
Qed.

(** A board with empty cells is no draw. *)
Lemma isDraw_iff_no_valid_moves_witness :
  is3x3 top_row_board
  ∧ ∃ full valid,
      isDraw top_row_board = Ok full
      ∧ getValidMoves top_row_board = Ok valid
      ∧ (full = true ↔ valid = []).
Proof.
  assert (is3x3 top_row_board) as H3x3.
  { split; [reflexivity | repeat constructor]. }
  split; [exact H3x3 |].
  exact (isDraw_iff_no_valid_moves top_row_board H3x3).
Defined.

(** ** Further properties of the methods *)

Lemma cell_at_insert (b : GameBoard) (r c : nat) (cells : list Cell)
    (v : Cell) (rc : nat * nat) :
  b !! r = Some cells → c < length cells →
  cell_at (<[r := <[c := v]> cells]> b) rc
  = if decide (rc = (r, c)) then Some v else cell_at b rc.
Proof.
  intros Hr Hc. destruct rc as [r' c']. unfold cell_at. cbn.
  pose proof (lookup_lt_Some _ _ _ Hr) as Hlt.
  destruct (decide (r' = r)) as [->|Hne].
  - rewrite list_lookup_insert_eq by done. cbn. rewrite Hr. cbn.
    destruct (decide (c' = c)) as [->|Hne].
    + rewrite list_lookup_insert_eq by done. by rewrite decide_True.
    + rewrite list_lookup_insert_ne by done.
      rewrite decide_False; [done | congruence].
  - rewrite list_lookup_insert_ne by done.
    rewrite decide_False; [done | congruence].
Qed.

Lemma occupied_count_insert (b : GameBoard) (r c : nat) (cells : list Cell)
    (p : string) :
  b !! r = Some cells → cells !! c = Some None →
  occupied_count (<[r := <[c := Some p]> cells]> b) = S (occupied_count b).
Proof.
  intros Hr Hc. unfold occupied_count.
  pose proof (lookup_lt_Some _ _ _ Hr) as Hrlt.
  pose proof (lookup_lt_Some _ _ _ Hc) as Hclt.
  rewrite (insert_take_drop b) by done.
  rewrite <- (take_drop_middle b r cells Hr) at 3.
  rewrite (insert_take_drop cells) by done.
  rewrite <- (take_drop_middle cells c None Hc) at 3.
  rewrite !concat_app, !concat_cons, !filter_app, !filter_cons.
  rewrite decide_True by done. rewrite decide_False by (by intros ?).
  rewrite !length_app. cbn. lia.
Qed.

Lemma filter_length_Forall {A} (P : A → Prop) `{∀ x, Decision (P x)}
    (l : list A) :
  length (filter P l) = length l ↔ Forall P l.
Proof.
  induction l as [|x l IH]; [by split; [constructor |] |].
  rewrite filter_cons. pose proof (length_filter P l) as Hle.
  destruct (decide (P x)); cbn.
  - rewrite Forall_cons. split; [intros [= ?]; tauto | intros [_ ?]].
    f_equal. tauto.
  - split; [lia |]. by intros [? _]%Forall_cons.
Qed.

Lemma is3x3_concat_length (b : GameBoard) : is3x3 b → length (concat b) = 9.
Proof.
  by intros (c00 & c01 & c02 & c10 & c11 & c12 & c20 & c21 & c22 & ->)
    %is3x3_cells.
Qed.

(** On a 3×3 board at most nine cells are occupied, and the board is full
    exactly when nine are. *)
Lemma occupied_count_full (b : GameBoard) :
  is3x3 b → occupied_count b ≤ 9 ∧ (board_full b ↔ occupied_count b = 9).
Proof.
  intros Hlen%is3x3_concat_length. unfold occupied_count, board_full.
  pose proof (length_filter (λ c : Cell, c ≠ None) (concat b)) as Hle.
  split; [lia |]. rewrite <- Forall_concat, <- filter_length_Forall. by rewrite Hlen.
Qed.

(** A move does not give a line to a player who did not make it. *)
Lemma three_in_a_row_insert_other (b : GameBoard) (r c : nat)
    (cells : list Cell) (p q : string) :
  b !! r = Some cells → c < length cells → q ≠ p →
  three_in_a_row (<[r := <[c := Some p]> cells]> b) q →
  three_in_a_row b q.
Proof.
  intros Hr Hc Hne. unfold three_in_a_row, occupies. intros Hex.
  eapply Exists_impl; [exact Hex |]. intros line Hline. cbn in Hline.
  eapply Forall_impl; [exact Hline |]. intros rc. cbn.
  rewrite (cell_at_insert _ _ _ _ _ _ Hr Hc).
  case_decide; [|done]. intros [= ?]. congruence.
Qed.

Lemma checkWinCondition_reflects (b : GameBoard) (playerId : string)
    (w : WinResult) :
  is3x3 b → checkWinCondition b playerId = Ok w →
  (won w = true ↔ three_in_a_row b playerId).
Proof.
  intros (c00 & c01 & c02 & c10 & c11 & c12 & c20 & c21 & c22 & ->)%is3x3_cells.
  destruct (checkWinCondition_3x3 playerId c00 c01 c02 c10 c11 c12 c20 c21 c22)
    as (w' & Hw & Hwon).
  rewrite Hw. intros [= <-]. by rewrite three_in_a_row_3x3, Hwon.
Qed.

Lemma three_in_a_row_cell (b : GameBoard) (q : string) :
  three_in_a_row b q → ∃ rc, cell_at b rc = Some (Some q).
Proof.
  unfold three_in_a_row, winning_lines, occupies.
  rewrite !Exists_cons, Exists_nil, !Forall_cons.
  intros H. repeat (destruct H as [H|H]; [destruct H as [H _]; eauto |]).
  done.
Qed.

Lemma cell_at_createEmptyBoard (rc : nat * nat) (p : string) :
  cell_at createEmptyBoard rc ≠ Some (Some p).
Proof. by destruct rc as [[|[|[|?]]] [|[|[|?]]]]. Qed.

(** The fields that [makeMove] leaves alone. *)
Lemma makeMove_Ok_frame env gameId playerId row col games game' move games' :
  GameModel.makeMove env gameId playerId row col games
    = (Ok (game', move), games') →
  ∃ game,
    games !! gameId = Some game
    ∧ game_id game' = game_id game
    ∧ game_name game' = game_name game
    ∧ createdAt game' = createdAt game
    ∧ updatedAt game' = clock env 0.
Proof.
  intros H. unfold GameModel.makeMove in H. run_M.
  destruct (games !! gameId) as [game|] eqn:Hg; [|done].
  repeat case_decide; try done.
  destruct (index_at (board game) row) as [cells|] eqn:Hrow; [|done].
  case_decide as Hcell; [done |].
  destruct (find _ (players game)) as [player|]; [|done].
  set (game1 := set_moves _ _) in H.
  destruct (checkWinCondition (board game1) playerId) as [w|] eqn:Hw; [|done].
  exists game. destruct (won w); [by simplify_eq |].
  destruct (isDraw (board game1)) as [[]|] eqn:Hfull; [by simplify_eq | |done].
  destruct (index_at (players game1) _) as [next|] eqn:Hnext; [|done].
  by simplify_eq.
Qed.

(** With two players, the entry after the one that holds the mover's id
    carries the id of the player whose index has the next parity. *)
Lemma parity_step (n : nat) :
  n mod 2 = 0 ∧ S n mod 2 = 1 ∨ n mod 2 = 1 ∧ S n mod 2 = 0.
Proof.
  pose proof (Nat.div_mod_eq n 2). pose proof (Nat.div_mod_eq (S n) 2).
  pose proof (Nat.mod_upper_bound n 2 ltac:(lia)).
  pose proof (Nat.mod_upper_bound (S n) 2 ltac:(lia)).
  lia.
Qed.

Lemma next_player_parity (a b p next : Player) (n : nat) (playerId : string) :
  [a; b] !! (n mod 2) = Some p →
  player_id p = playerId →
  index_at [a; b]
    ((findIndex (λ p, player_id p = playerId) [a; b] + 1) `rem` 2)%Z
    = Some next →
  ∃ p', [a; b] !! (S n mod 2) = Some p' ∧ player_id next = player_id p'.
Proof.
  intros Hp Hid.
  destruct (parity_step n) as [[Hn ->]|[Hn ->]];
    rewrite Hn in Hp; simplify_eq/=; unfold findIndex; cbn.
  - rewrite decide_True by done. cbn. intros [= <-]. by eexists.
  - case_decide as Ha; cbn.
    + intros [= <-]. eexists. split; [done |]. congruence.
    + rewrite decide_True by done. cbn. intros [= <-]. by eexists.
Qed.

(** *** The methods keep [game_inv] *)

#[local] Arguments Nat.modulo : simpl never.

Lemma games_inv_insert games key g :
  games_inv games → game_inv key g → games_inv (<[key := g]> games).
Proof.
  intros Hinv Hg key' g'. rewrite lookup_insert.
  case_decide as Hkey; [by intros [= <-]; subst | apply Hinv].
Qed.

Lemma game_inv_no_moves key g :
  game_inv key g → moves g = [] → no_line (board g) ∧ ¬ board_full (board g).
Proof.
  intros Hinv Hmoves. split.
  - intros q (rc & Hrc)%three_in_a_row_cell.
    apply (inv_cells _ _ Hinv) in Hrc as (mv & Hmv & _).
    rewrite Hmoves in Hmv. by apply elem_of_nil in Hmv.
  - intros Hfull%(occupied_count_full _ (inv_board _ _ Hinv)).
    rewrite (inv_count _ _ Hinv), Hmoves in Hfull. done.
Qed.

Lemma createGame_inv env name games :
  games_inv games → games_inv (GameModel.createGame env name games).2.
Proof.
  intros Hinv. unfold GameModel.createGame. run_M. cbn.
  apply games_inv_insert; [done |].
  split; cbn; try done.
  - apply is3x3_createEmptyBoard.
  - left. split; [done | lia].
  - intros rc p Hrc. by apply cell_at_createEmptyBoard in Hrc.
  - constructor.
  - by intros [? | ?].
Qed.

Lemma joinGame_inv env gameId player games :
  games_inv games → games_inv (GameModel.joinGame env gameId player games).2.
Proof.
  intros Hinv. unfold GameModel.joinGame. run_M.
  destruct (games !! gameId) as [game|] eqn:Hg; [|done].
  pose proof (Hinv _ _ Hg) as Hgame.
  case_decide as Hst; [done |].
  case_decide as Hfull; [done |].
  destruct (inv_fresh _ _ Hgame Hst) as [Hmoves Hcur].
  destruct (game_inv_no_moves _ _ Hgame Hmoves) as [Hnoline Hnotfull].
  assert (winnerId game = None) as Hwinner.
  { apply (inv_winner _ _ Hgame). congruence. }
  case_decide as Hlen; cbn in *.
  - rewrite index_at_0.
    destruct (players game ++ [player]) as [|first rest] eqn:Hplayers;
      [by destruct (players game) |].
    cbn. rewrite !insert_insert_eq. apply games_inv_insert; [done |].
    destruct Hgame. split; cbn; try done.
    + by right.
    + rewrite Hmoves. by intros i mv ?.
    + intros _. rewrite Hmoves. cbn. split; [by eexists |]. done.
    + by intros [? | ?].
  - rewrite !insert_insert_eq. apply games_inv_insert; [done |].
    destruct Hgame. split; cbn; try done.
    + left. split; [done |]. rewrite length_app in *. cbn in *. lia.
    + rewrite Hmoves. by intros i mv ?.
    + intros ?; congruence.
Qed.

Lemma makeMove_Ok_game_inv env gameId playerId row col games game' move games' :
  games_inv games →
  GameModel.makeMove env gameId playerId row col games
    = (Ok (game', move), games') →
  game_inv gameId game'.
Proof.
  intros Hinv Hmove.
  destruct (makeMove_Ok_frame _ _ _ _ _ _ _ _ _ Hmove)
    as (game0 & Hg0 & Hid & _).
  apply makeMove_Ok_inv in Hmove
    as (game & cells & w & Hg & Hst & Hcur & Hrow_range & Hcol_range & Hrow
        & Hcell & Hmv & _ & Hboard & Hmoves & Hplayers & Hw & Hout).
  assert (game0 = game) as -> by congruence.
  pose proof (Hinv _ _ Hg) as Hgame.
  set (r := Z.to_nat row) in *. set (c := Z.to_nat col) in *.
  pose proof (lookup_lt_Some _ _ _ Hcell) as Hclt.
  assert (move_pos move = (r, c)) as Hpos by by rewrite Hmv.
  assert (move_playerId move = playerId) as Hmover by by rewrite Hmv.
  assert (cell_at (board game) (r, c) = Some None) as Hold.
  { unfold cell_at. cbn. by rewrite Hrow. }
  pose proof (is3x3_insert _ _ c _ (Some playerId) (inv_board _ _ Hgame) Hrow)
    as H3x3.
  rewrite <- Hboard in H3x3.
  destruct (inv_active _ _ Hgame Hst) as ((p & Hp & Hpcur) & Hnoline & _).
  assert (player_id p = playerId) as Hpid by congruence.
  assert (length (players game) = 2) as Hlen.
  { destruct (inv_players _ _ Hgame) as [[? _]|[_ ?]]; [congruence | done]. }
  assert (winnerId game = None) as Hnowinner.
  { apply (inv_winner _ _ Hgame). congruence. }
  assert (∀ q, q ≠ playerId → ¬ three_in_a_row (board game') q) as Hothers.
  { intros q Hq Hline. rewrite Hboard in Hline.
    by apply three_in_a_row_insert_other, Hnoline in Hline. }
  assert (status game' ≠ waiting) as Hnotwaiting.
  { destruct Hout as [(_ & -> & _)|[(_ & _ & -> & _)|(_ & _ & -> & _)]]; done. }
  split.
  - rewrite Hid. apply Hgame.
  - done.
  - right. split; [done | congruence].
  - done.
  - intros i mv Hi. rewrite Hmoves in Hi. rewrite Hplayers, Hboard.
    apply lookup_app_Some in Hi as [Hi|[Hge Hi]].
    + destruct (inv_moves _ _ Hgame _ _ Hi) as (? & ? & ? & Hon & ?).
      repeat split; try done; try lia.
      rewrite (cell_at_insert _ _ _ _ _ _ Hrow Hclt).
      rewrite decide_False; [done |]. intros Heq. rewrite Heq in Hon. congruence.
    + apply list_lookup_singleton_Some in Hi as [Hi <-].
      assert (i = length (moves game)) as -> by lia.
      rewrite Hpos, Hmover.
      rewrite (cell_at_insert _ _ _ _ _ _ Hrow Hclt), decide_True by done.
      rewrite Hmv. cbn. repeat split; try done; try lia. by exists p.
  - intros rc q. rewrite Hboard, (cell_at_insert _ _ _ _ _ _ Hrow Hclt), Hmoves.
    case_decide as Hrc.
    + intros [= <-]. exists move. rewrite elem_of_app, list_elem_of_singleton.
      split; [by right |]. by rewrite Hpos.
    + intros (mv & ? & ? & ?)%(inv_cells _ _ Hgame). exists mv.
      rewrite elem_of_app. by repeat split; [left | |].
  - rewrite Hmoves, fmap_app. apply NoDup_app. split; [apply Hgame |].
    split; [|cbn; apply NoDup_singleton].
    intros rc (mv & -> & Hmvin)%list_elem_of_fmap.
    cbn. rewrite list_elem_of_singleton, Hpos. intros Heq.
    apply list_elem_of_lookup in Hmvin as [i Hi].
    destruct (inv_moves _ _ Hgame _ _ Hi) as (_ & _ & _ & Hon & _).
    rewrite Heq in Hon. congruence.
  - rewrite Hboard, Hmoves, length_app, (occupied_count_insert _ _ _ _ _ Hrow Hcell).
    rewrite (inv_count _ _ Hgame). cbn. lia.
  - intros Hactive.
    destruct Hout as [(_ & ? & _)|[(_ & _ & ? & _)
                                  |(Hwon & Hfull & _ & _ & next & Hnext & Hcur')]];
      [congruence | congruence |].
    split; [|split].
    + rewrite Hmoves, length_app, Hplayers. cbn. rewrite Nat.add_1_r.
      destruct (players game) as [|a [|b [|]]] eqn:Hps; try done.
      destruct (next_player_parity _ _ _ _ _ _ Hp Hpid Hnext) as (p' & ? & ?).
      exists p'. split; [done | congruence].
    + intros q. destruct (decide (q = playerId)) as [->|Hq]; [|by apply Hothers].
      rewrite <- (checkWinCondition_reflects _ _ _ H3x3 Hw). congruence.
    + rewrite (isDraw_full _ H3x3) in Hfull.
      by injection Hfull as Hfull%bool_decide_eq_false.
  - intros Hdraw.
    destruct Hout as [(_ & ? & _)|[(Hwon & Hfull & _)|(_ & _ & ? & _)]];
      [congruence | | congruence].
    split.
    + rewrite (isDraw_full _ H3x3) in Hfull.
      by injection Hfull as Hfull%bool_decide_eq_true.
    + intros q. destruct (decide (q = playerId)) as [->|Hq]; [|by apply Hothers].
      rewrite <- (checkWinCondition_reflects _ _ _ H3x3 Hw). congruence.
  - intros Hcompleted.
    destruct Hout as [(Hwon & _ & Hwinner & _)|[(_ & _ & ? & _)|(_ & _ & ? & _)]];
      [| congruence | congruence].
    exists playerId. split; [done |]. split.
    + by apply (checkWinCondition_reflects _ _ _ H3x3 Hw).
    + intros q Hline. destruct (decide (q = playerId)) as [|Hq]; [done |].
      by apply Hothers in Hline.
  - intros Hnot.
    destruct Hout as [(_ & ? & _)|[(_ & _ & _ & -> & _)|(_ & _ & _ & -> & _)]];
      [congruence | done | done].
  - intros Hend. exists (moves game), move. split; [done |]. rewrite Hmover.
    destruct Hout as [(_ & _ & ? & ?)|[(_ & _ & ? & _ & ?)|(_ & _ & ? & _)]];
      [done | | destruct Hend; congruence].
    split; [done |]. congruence.
Qed.

Lemma game_inv_ok key g : game_inv key g → game_ok g.
Proof.
  intros Hinv. split; [apply Hinv |].
  split; [|intros Hst; by destruct (inv_fresh _ _ Hinv Hst)].
  intros Hcur. destruct (status g) eqn:Hst; [done | | |].
  - destruct (inv_active _ _ Hinv Hst) as ((p & _ & ?) & _). congruence.
  - destruct (inv_last _ _ Hinv) as (ms & mv & _ & ? & _); [by left |].
    congruence.
  - destruct (inv_last _ _ Hinv) as (ms & mv & _ & ? & _); [by right |].
    congruence.
Qed.

Lemma games_inv_ok games : games_inv games → games_ok games.
Proof. intros Hinv key g Hg. by eapply game_inv_ok, Hinv. Qed.

Lemma makeMove_inv env gameId playerId row col games :
  games_inv games →
  games_inv (GameModel.makeMove env gameId playerId row col games).2.
Proof.
  intros Hinv.
  destruct (GameModel.makeMove env gameId playerId row col games)
    as [[[game' move]|e] games'] eqn:Hmove; cbn.
  - pose proof (makeMove_Ok_game_inv _ _ _ _ _ _ _ _ _ Hinv Hmove) as Hgame'.
    apply makeMove_Ok_inv in Hmove
      as (game & cells & w & _ & _ & _ & _ & _ & _ & _ & _ & -> & _).
    by apply games_inv_insert.
  - pose proof (makeMove_no_TypeError _ _ _ _ _ _ _ _ (games_inv_ok _ Hinv) Hmove)
      as Hne.
    by destruct (makeMove_thrown_unchanged _ _ _ _ _ _ _ _ Hmove Hne) as [-> _].
Qed.

Lemma deleteGame_inv gameId games :
  games_inv games → games_inv (GameModel.deleteGame gameId games).2.
Proof.
  intros Hinv. unfold GameModel.deleteGame. run_M.
  destruct (games !! gameId) as [game|] eqn:Hg; [|done].
  cbn. intros key g [_ Hkey]%lookup_delete_Some. by apply Hinv.
Qed.

Lemma reachable_inv games : reachable games → games_inv games.
Proof.
  induction 1 as [|games c _ IH]; [by intros key g ?|].
  destruct c; cbn;
    auto using createGame_inv, joinGame_inv, makeMove_inv, deleteGame_inv.
Qed.

(** ** Invariants of the reachable games *)

(** X4. A reachable game never has more than two players, and it is
    [waiting] exactly while it has fewer than two. *)
Theorem players_and_status games key g :
  reachable games → games !! key = Some g →
  length (players g) ≤ 2
  ∧ (status g = waiting ↔ length (players g) < 2)
  ∧ (status g ≠ waiting ↔ length (players g) = 2).
Proof.
  intros Hinv%reachable_inv Hg.
  destruct (inv_players _ _ (Hinv _ _ Hg)) as [[Hst Hlen]|[Hst Hlen]].
  - split; [lia |]. split; [done |]. split; [done | lia].
  - split; [lia |]. split; [split; [done | lia] | done].
Qed.

(** The game in which only Alice waits. *)
Lemma players_and_status_witness :
  reachable (run_calls one_joined)
  ∧ run_calls one_joined !! "G1" = Some one_joined_game
  ∧ length (players one_joined_game) ≤ 2
  ∧ (status one_joined_game = waiting ↔ length (players one_joined_game) < 2)
  ∧ (status one_joined_game ≠ waiting
     ↔ length (players one_joined_game) = 2).
Proof.
  assert (run_calls one_joined !! "G1" = Some one_joined_game) as Hg
    by (vm_compute; reflexivity).
  split; [apply reachable_run_calls |]. split; [exact Hg |].
  exact (players_and_status _ _ _ (reachable_run_calls one_joined) Hg).
Defined.

(** X5. The status of a reachable game tells its board: the game is
    [completed] exactly when some player occupies a winning line, and it
    is a [draw] exactly when the board is full and nobody does. *)
Theorem status_reflects_board games key g :
  reachable games → games !! key = Some g →
  (status g = completed ↔ ∃ q, three_in_a_row (board g) q)
  ∧ (status g = draw ↔ board_full (board g) ∧ no_line (board g)).
Proof.
  intros Hinv%reachable_inv Hg. pose proof (Hinv _ _ Hg) as Hgame.
  assert (status g = waiting → no_line (board g) ∧ ¬ board_full (board g))
    as Hwaiting.
  { intros [Hmoves _]%(inv_fresh _ _ Hgame).
    by apply (game_inv_no_moves _ _ Hgame). }
  pose proof (inv_active _ _ Hgame) as Hactive.
  pose proof (inv_draw _ _ Hgame) as Hdraw.
  pose proof (inv_completed _ _ Hgame) as Hcompleted.
  split; split.
  - intros (w & _ & ? & _)%Hcompleted. by exists w.
  - intros [q Hq]. destruct (status g); [| |done |].
    + destruct Hwaiting as [Hno _]; [done |]. by apply Hno in Hq.
    + destruct Hactive as (_ & Hno & _); [done |]. by apply Hno in Hq.
    + destruct Hdraw as [_ Hno]; [done |]. by apply Hno in Hq.
  - done.
  - intros [Hfull Hno]. destruct (status g); [| | |done].
    + destruct Hwaiting as [_ ?]; done.
    + destruct Hactive as (_ & _ & ?); done.
    + destruct Hcompleted as (w & _ & Hw & _); [done |]. by apply Hno in Hw.
Qed.

(** The game that Alice has won with the top row. *)
Lemma status_reflects_board_witness :
  ∃ g,
    reachable (run_calls alice_wins)
    ∧ run_calls alice_wins !! "G1" = Some g
    ∧ status g = completed
    ∧ (status g = completed ↔ ∃ q, three_in_a_row (board g) q)
    ∧ (status g = draw ↔ board_full (board g) ∧ no_line (board g)).
Proof.
  eexists.
  assert (run_calls alice_wins !! "G1" = Some _) as Hg
    by (vm_compute; reflexivity).
  split; [apply reachable_run_calls |]. split; [exact Hg |].
  split; [reflexivity |].
  exact (status_reflects_board _ _ _ (reachable_run_calls alice_wins) Hg).
Defined.

(** X6. A reachable game has a winner exactly when it is [completed];
    the winner is then the player who made the last move, is one of the
    players of the game, occupies a winning line, and is the only player
    who does. *)
Theorem winner_of_completed_game games key g :
  reachable games → games !! key = Some g →
  (winnerId g ≠ None ↔ status g = completed)
  ∧ (status g = completed →
       ∃ w earlier last p,
         winnerId g = Some w
         ∧ moves g = earlier ++ [last]
         ∧ move_playerId last = w
         ∧ p ∈ players g ∧ player_id p = w
         ∧ three_in_a_row (board g) w
         ∧ ∀ q, three_in_a_row (board g) q → q = w).
Proof.
  intros Hinv%reachable_inv Hg. pose proof (Hinv _ _ Hg) as Hgame. split.
  - split.
    + intros Hw. destruct (decide (status g = completed)) as [|Hst]; [done |].
      by apply (inv_winner _ _ Hgame) in Hst.
    + intros (w & -> & _)%(inv_completed _ _ Hgame). done.
  - intros Hst.
    destruct (inv_completed _ _ Hgame Hst) as (w & Hw & Hline & Honly).
    destruct (inv_last _ _ Hgame) as (ms & mv & Hmoves & _ & Hlast);
      [by left |].
    specialize (Hlast Hst).
    destruct (inv_moves _ _ Hgame (length ms) mv) as (_ & _ & _ & _ & p & Hp & Hid).
    { rewrite Hmoves. by apply list_lookup_middle. }
    exists w, ms, mv, p. split; [done |]. split; [done |].
    split; [congruence |]. split; [by eapply list_elem_of_lookup_2 |].
    split; [congruence | done].
Qed.

(** Alice is the winner of the game that she has won. *)
Lemma winner_of_completed_game_witness :
  ∃ g,
    reachable (run_calls alice_wins)
    ∧ run_calls alice_wins !! "G1" = Some g
    ∧ status g = completed
    ∧ ∃ w earlier last p,
        winnerId g = Some w
        ∧ moves g = earlier ++ [last]
        ∧ move_playerId last = w
        ∧ p ∈ players g ∧ player_id p = w
        ∧ three_in_a_row (board g) w
        ∧ ∀ q, three_in_a_row (board g) q → q = w.
Proof.
  eexists.
  assert (run_calls alice_wins !! "G1" = Some _) as Hg
    by (vm_compute; reflexivity).
  split; [apply reachable_run_calls |]. split; [exact Hg |].
  split; [reflexivity |].
  exact (proj2 (winner_of_completed_game _ _ _
                  (reachable_run_calls alice_wins) Hg) eq_refl).
Defined.

(** X7. The move log and the board of a reachable game agree: every
    logged move lies on the board and its cell holds the mover's id,
    every occupied cell comes from a logged move, no two logged moves
    name the same cell, and the number of occupied cells is the length of
    the log. *)
Theorem move_log_matches_board games key g :
  reachable games → games !! key = Some g →
  (∀ mv, mv ∈ moves g →
     (0 ≤ move_row mv ≤ 2)%Z ∧ (0 ≤ move_col mv ≤ 2)%Z
     ∧ cell_at (board g) (move_pos mv) = Some (Some (move_playerId mv)))
  ∧ (∀ rc p, cell_at (board g) rc = Some (Some p) →
       ∃ mv, mv ∈ moves g ∧ move_pos mv = rc ∧ move_playerId mv = p)
  ∧ NoDup (move_pos <$> moves g)
  ∧ occupied_count (board g) = length (moves g).
Proof.
  intros Hinv%reachable_inv Hg. pose proof (Hinv _ _ Hg) as Hgame.
  split; [|split; [apply Hgame | split; apply Hgame]].
  intros mv [i Hi]%list_elem_of_lookup.
  by destruct (inv_moves _ _ Hgame _ _ Hi) as (_ & ? & ? & ? & _).
Qed.

(** The four moves made before Alice wins. *)
Lemma move_log_matches_board_witness :
  ∃ g,
    reachable (run_calls before_win)
    ∧ run_calls before_win !! "G1" = Some g
    ∧ length (moves g) = 4
    ∧ (∀ mv, mv ∈ moves g →
         (0 ≤ move_row mv ≤ 2)%Z ∧ (0 ≤ move_col mv ≤ 2)%Z
         ∧ cell_at (board g) (move_pos mv) = Some (Some (move_playerId mv)))
    ∧ (∀ rc p, cell_at (board g) rc = Some (Some p) →
         ∃ mv, mv ∈ moves g ∧ move_pos mv = rc ∧ move_playerId mv = p)
    ∧ NoDup (move_pos <$> moves g)
    ∧ occupied_count (board g) = length (moves g).
Proof.
  eexists.
  assert (run_calls before_win !! "G1" = Some _) as Hg
    by (vm_compute; reflexivity).
  split; [apply reachable_run_calls |]. split; [exact Hg |].
  split; [reflexivity |].
  exact (move_log_matches_board _ _ _ (reachable_run_calls before_win) Hg).
Defined.

(** X8. In a reachable game the moves alternate along the list of
    players, starting with the first-joined one: the move at index [i] of
    the log was made by [players[i mod 2]], and while the game is [active]
    the turn belongs to [players[n mod 2]] for [n] the number of moves
    made. When the two players have different ids, consecutive moves of
    the log have different movers. *)
Theorem turns_alternate games key g :
  reachable games → games !! key = Some g →
  (∀ i mv, moves g !! i = Some mv →
     ∃ p, players g !! (i mod 2) = Some p ∧ move_playerId mv = player_id p)
  ∧ (status g = active →
       ∃ p, players g !! (length (moves g) mod 2) = Some p
            ∧ currentPlayerId g = Some (player_id p))
  ∧ (∀ a b i mv mv',
       players g = [a; b] → player_id a ≠ player_id b →
       moves g !! i = Some mv → moves g !! S i = Some mv' →
       move_playerId mv ≠ move_playerId mv').
Proof.
  intros Hinv%reachable_inv Hg. pose proof (Hinv _ _ Hg) as Hgame.
  assert (∀ i mv, moves g !! i = Some mv →
     ∃ p, players g !! (i mod 2) = Some p ∧ move_playerId mv = player_id p)
    as Hmovers.
  { intros i mv Hi.
    by destruct (inv_moves _ _ Hgame _ _ Hi) as (_ & _ & _ & _ & ?). }
  split; [done |]. split.
  - by intros (? & _)%(inv_active _ _ Hgame).
  - intros a b i mv mv' Hplayers Hne Hi HSi.
    destruct (Hmovers _ _ Hi) as (p & Hp & ->).
    destruct (Hmovers _ _ HSi) as (p' & Hp' & ->).
    rewrite Hplayers in Hp, Hp'.
    destruct (parity_step i) as [[Hn HSn]|[Hn HSn]];
      rewrite Hn in Hp; rewrite HSn in Hp'; simplify_eq/=; congruence.
Qed.

(** After four moves it is Alice's turn again. *)
Lemma turns_alternate_witness :
  ∃ g,
    reachable (run_calls before_win)
    ∧ run_calls before_win !! "G1" = Some g
    ∧ status g = active
    ∧ players g = [alice; bob]
    ∧ (∀ i mv, moves g !! i = Some mv →
         ∃ p, players g !! (i mod 2) = Some p
              ∧ move_playerId mv = player_id p)
    ∧ (∃ p, players g !! (length (moves g) mod 2) = Some p
            ∧ currentPlayerId g = Some (player_id p))
    ∧ (∀ i mv mv',
         moves g !! i = Some mv → moves g !! S i = Some mv' →
         move_playerId mv ≠ move_playerId mv').
Proof.
  eexists.
  assert (run_calls before_win !! "G1" = Some _) as Hg
    by (vm_compute; reflexivity).
  split; [apply reachable_run_calls |]. split; [exact Hg |].
  split; [reflexivity |]. split; [reflexivity |].
  destruct (turns_alternate _ _ _ (reachable_run_calls before_win) Hg)
    as (Hmovers & Hturn & Hdiffer).
  split; [exact Hmovers |]. split; [exact (Hturn eq_refl) |].
  intros i mv mv'. apply (Hdiffer alice bob); [reflexivity | discriminate].
Defined.

(** X9. A reachable game has at most nine moves in its log; an [active]
    game has fewer than nine, and a [draw] has exactly nine. *)
Theorem at_most_nine_moves games key g :
  reachable games → games !! key = Some g →
  length (moves g) ≤ 9
  ∧ (status g = active → length (moves g) < 9)
  ∧ (status g = draw → length (moves g) = 9).
Proof.
  intros Hinv%reachable_inv Hg. pose proof (Hinv _ _ Hg) as Hgame.
  destruct (occupied_count_full _ (inv_board _ _ Hgame)) as [Hle Hfull].
  rewrite (inv_count _ _ Hgame) in Hle, Hfull.
  split; [done |]. split.
  - intros (_ & _ & Hnot)%(inv_active _ _ Hgame).
    destruct (decide (length (moves g) = 9)) as [?%Hfull|]; [done | lia].
  - intros [? _]%(inv_draw _ _ Hgame). by apply Hfull.
Qed.

(** The game that ends in a draw has nine moves. *)
Lemma at_most_nine_moves_witness :
  ∃ g,
    reachable (run_calls nobody_wins)
    ∧ run_calls nobody_wins !! "G1" = Some g
    ∧ status g = draw
    ∧ length (moves g) ≤ 9
    ∧ length (moves g) = 9.
Proof.
  eexists.
  assert (run_calls nobody_wins !! "G1" = Some _) as Hg
    by (vm_compute; reflexivity).
  split; [apply reachable_run_calls |]. split; [exact Hg |].
  split; [reflexivity |].
  destruct (at_most_nine_moves _ _ _ (reachable_run_calls nobody_wins) Hg)
    as (Hmost & _ & Hdraw).
  split; [exact Hmost | exact (Hdraw eq_refl)].
Defined.

(** X10. A reachable game is stored under its own id, and every move of
    its log names that game. *)
Theorem game_stored_under_its_id games key g :
  reachable games → games !! key = Some g →
  game_id g = key ∧ ∀ mv, mv ∈ moves g → move_gameId mv = key.
Proof.
  intros Hinv%reachable_inv Hg. pose proof (Hinv _ _ Hg) as Hgame.
  split; [apply Hgame |].
  intros mv [i Hi]%list_elem_of_lookup.
  by destruct (inv_moves _ _ Hgame _ _ Hi) as (? & _).
Qed.

(** The game G1 and its moves. *)
Lemma game_stored_under_its_id_witness :
  ∃ g,
    reachable (run_calls before_win)
    ∧ run_calls before_win !! "G1" = Some g
    ∧ game_id g = "G1"
    ∧ ∀ mv, mv ∈ moves g → move_gameId mv = "G1".
Proof.
  eexists.
  assert (run_calls before_win !! "G1" = Some _) as Hg
    by (vm_compute; reflexivity).
  split; [apply reachable_run_calls |]. split; [exact Hg |].
  exact (game_stored_under_its_id _ _ _ (reachable_run_calls before_win) Hg).
Defined.

(** ** How the calls compose *)

Lemma run_call_other_key games c key :
  key ≠ call_target c → run_call games c !! key = games !! key.
Proof.
  intros Hne.
  destruct c as [env name|env gameId player|env gameId playerId row col|gameId];
    cbn in *.
  - unfold GameModel.createGame. run_M. cbn. by rewrite lookup_insert_ne.
  - destruct (GameModel.joinGame env gameId player games) as [r games'] eqn:H.
    unfold GameModel.joinGame in H. run_M. cbn.
    destruct (games !! gameId) as [game|] eqn:Hg; [|by simplify_eq].
    repeat case_decide; try (by simplify_eq).
    + destruct (index_at _ 0); simplify_eq; by rewrite !lookup_insert_ne.
    + simplify_eq. by rewrite !lookup_insert_ne.
  - destruct (GameModel.makeMove env gameId playerId row col games)
      as [r games'] eqn:H.
    unfold GameModel.makeMove in H. run_M. cbn.
    destruct (games !! gameId) as [game|] eqn:Hg; [|by simplify_eq].
    repeat case_decide; try (by simplify_eq).
    destruct (index_at (board game) row) as [cells|]; [|by simplify_eq].
    case_decide; [by simplify_eq |].
    destruct (find _ (players game)); [|by simplify_eq].
    set (game1 := set_moves _ _) in H.
    destruct (checkWinCondition (board game1) playerId) as [w|];
      [|simplify_eq; by rewrite lookup_insert_ne].
    destruct (won w); [simplify_eq; by rewrite !lookup_insert_ne |].
    destruct (isDraw (board game1)) as [[]|];
      [simplify_eq; by rewrite !lookup_insert_ne |
      |simplify_eq; by rewrite lookup_insert_ne].
    destruct (index_at (players game1) _); simplify_eq;
      by rewrite !lookup_insert_ne.
  - unfold GameModel.deleteGame. run_M.
    destruct (games !! gameId) as [game|] eqn:Hg; [|done].
    cbn. by rewrite lookup_delete_ne.
Qed.

(** X11. A call changes at most the game stored under the key it works
    on: the id passed to [joinGame], [makeMove] and [deleteGame], the
    fresh id for [createGame]. So every entry of the map is left as it
    was by any sequence of calls that work on other keys, whatever these
    calls return or throw. *)
Theorem call_touches_one_game games (cs : list Call) key :
  Forall (λ c, call_target c ≠ key) cs →
  foldl run_call games cs !! key = games !! key.
Proof.
  intros Hcs. revert games.
  induction Hcs as [|c cs Hc _ IH]; intros games; [done |].
  cbn. rewrite IH. by apply run_call_other_key.
Qed.

(** The rest of the game G1 is played while G2 waits. *)
Lemma call_touches_one_game_witness :
  Forall (λ c, call_target c ≠ "G2") game_after_opening
  ∧ foldl run_call (run_calls two_opened) game_after_opening !! "G2"
    = run_calls two_opened !! "G2"
  ∧ is_Some (run_calls two_opened !! "G2").
Proof.
  assert (Forall (λ c, call_target c ≠ "G2") game_after_opening) as Hother
    by (repeat constructor; discriminate).
  split; [exact Hother |].
  split; [exact (call_touches_one_game _ _ _ Hother) |].
  vm_compute. eexists. reflexivity.
Defined.

Lemma extends_refl g : extends g g.
Proof. by repeat split. Qed.

Lemma extends_trans g1 g2 g3 : extends g1 g2 → extends g2 g3 → extends g1 g3.
Proof.
  intros (? & ? & ? & ? & ? & ? & ?) (? & ? & ? & ? & ? & ? & ?).
  repeat split; try congruence; try (by etrans); auto.
Qed.

Lemma joinGame_extends env gameId player games game :
  games !! gameId = Some game →
  ∃ game', (GameModel.joinGame env gameId player games).2 !! gameId = Some game'
           ∧ extends game game'.
Proof.
  intros Hg. unfold GameModel.joinGame. run_M. rewrite Hg.
  assert (∀ g', players game `prefix_of` players g' →
                game_id g' = game_id game → game_name g' = game_name game →
                createdAt g' = createdAt game → moves g' = moves game →
                board g' = board game → winnerId g' = winnerId game →
                extends game g') as Hext.
  { intros g' ? ? ? ? Hm Hb Hw. repeat split; try done.
    - by rewrite Hm. - by rewrite Hb. - by rewrite Hw. }
  repeat case_decide; cbn;
    try (exists game; split; [done | apply extends_refl]).
  - destruct (index_at _ 0); cbn; rewrite lookup_insert_eq; eexists;
      (split; [done |]); apply Hext; try done; by apply prefix_app_r.
  - rewrite lookup_insert_eq. eexists. split; [done |].
    apply Hext; try done. by apply prefix_app_r.
Qed.

Lemma makeMove_extends env gameId playerId row col games game :
  games_inv games →
  games !! gameId = Some game →
  ∃ game',
    (GameModel.makeMove env gameId playerId row col games).2 !! gameId
      = Some game'
    ∧ extends game game'.
Proof.
  intros Hinv Hg.
  destruct (GameModel.makeMove env gameId playerId row col games)
    as [[[game' move]|e] games'] eqn:Hmove; cbn.
  - destruct (makeMove_Ok_frame _ _ _ _ _ _ _ _ _ Hmove)
      as (game0 & Hg0 & Hid & Hname & Hcreated & _).
    apply makeMove_Ok_inv in Hmove
      as (game1 & cells & w & Hg1 & Hst & _ & _ & _ & Hrow & Hcell & _ & ->
          & Hboard & Hmoves & Hplayers & _ & Hout).
    simplify_eq. exists game'. rewrite lookup_insert_eq. split; [done |].
    repeat split; try done.
    + by rewrite Hplayers.
    + rewrite Hmoves. by apply prefix_app_r.
    + intros rc p Hrc. rewrite Hboard.
      rewrite (cell_at_insert _ _ _ _ _ _ Hrow (lookup_lt_Some _ _ _ Hcell)).
      rewrite decide_False; [done |]. intros ->.
      unfold cell_at in Hrc. cbn in Hrc. rewrite Hrow in Hrc. cbn in Hrc.
      congruence.
    + intros w' Hw'.
      rewrite (inv_winner _ _ (Hinv _ _ Hg)) in Hw' by congruence. done.
  - pose proof (makeMove_no_TypeError _ _ _ _ _ _ _ _ (games_inv_ok _ Hinv) Hmove)
      as Hne.
    destruct (makeMove_thrown_unchanged _ _ _ _ _ _ _ _ Hmove Hne) as [-> _].
    exists game. split; [done | apply extends_refl].
Qed.

(** X12. What a reachable game has recorded stays: as long as the game is
    not deleted and no game is created under its key, after any sequence
    of calls the game is still stored, with the same id, name and
    creation date, its list of players and its move log are extensions of
    the old ones, every cell that was occupied holds the same id, and a
    winner stays the winner. *)
Theorem game_history_is_kept games key g (cs : list Call) :
  reachable games → games !! key = Some g →
  Forall (leaves key) cs →
  ∃ g', foldl run_call games cs !! key = Some g' ∧ extends g g'.
Proof.
  intros Hreach Hg Hcs. revert games g Hreach Hg.
  induction Hcs as [|c cs Hc _ IH]; intros games g Hreach Hg; cbn.
  { exists g. split; [done | apply extends_refl]. }
  assert (∃ g1, run_call games c !! key = Some g1 ∧ extends g g1)
    as (g1 & Hg1 & Hext1).
  { destruct (decide (key = call_target c)) as [->|Hne].
    - destruct c as [env name|env gameId player|env gameId playerId row col
                    |gameId]; cbn in *; [done | | | done].
      + by apply joinGame_extends.
      + by apply makeMove_extends; [apply reachable_inv |].
    - exists g. rewrite (run_call_other_key _ _ _ Hne).
      split; [done | apply extends_refl]. }
  destruct (IH _ _ (reachable_call _ c Hreach) Hg1) as (g' & Hg' & Hext').
  exists g'. split; [done |]. by eapply extends_trans.
Qed.

(** From Alice's first move to the end of the game. *)
Lemma game_history_is_kept_witness :
  ∃ g,
    reachable (run_calls first_move)
    ∧ run_calls first_move !! "G1" = Some g
    ∧ Forall (leaves "G1") rest_of_the_game
    ∧ ∃ g', foldl run_call (run_calls first_move) rest_of_the_game !! "G1"
            = Some g'
            ∧ extends g g'.
Proof.
  eexists.
  assert (run_calls first_move !! "G1" = Some _) as Hg
    by (vm_compute; reflexivity).
  assert (Forall (leaves "G1") rest_of_the_game) as Hleaves
    by (repeat constructor; discriminate).
  split; [apply reachable_run_calls |]. split; [exact Hg |].
  split; [exact Hleaves |].
  exact (game_history_is_kept _ _ _ _ (reachable_run_calls first_move)
           Hg Hleaves).
Defined.

Lemma makeMove_not_active env gameId playerId row col games game :
  games !! gameId = Some game → status game ≠ active →
  GameModel.makeMove env gameId playerId row col games
  = (Throw ErrNotActive, games).
Proof.
  intros Hg Hst. unfold GameModel.makeMove. run_M. rewrite Hg.
  by rewrite decide_True.
Qed.

(** X13. A finished game is frozen: once a game is [completed] or a
    [draw], no sequence of calls changes any of its fields, as long as
    the game is not deleted and no game is created under its key; every
    [joinGame] and [makeMove] on it fails. This holds on every map. *)
Theorem finished_game_is_frozen games key g (cs : list Call) :
  games !! key = Some g →
  status g = completed ∨ status g = draw →
  Forall (leaves key) cs →
  foldl run_call games cs !! key = Some g
  ∧ (∀ env player,
       GameModel.joinGame env key player games = (Throw ErrNotAccepting, games))
  ∧ (∀ env playerId row col,
       GameModel.makeMove env key playerId row col games
       = (Throw ErrNotActive, games)).
Proof.
  intros Hg Hend Hcs.
  assert (status g ≠ waiting ∧ status g ≠ active) as [Hnw Hna]
    by (destruct Hend; split; congruence).
  split; [|split].
  - revert games Hg. induction Hcs as [|c cs Hc _ IH]; intros games Hg; [done |].
    cbn. apply IH.
    destruct (decide (key = call_target c)) as [->|Hne];
      [|by rewrite run_call_other_key].
    destruct c as [env name|env gameId player|env gameId playerId row col
                  |gameId]; cbn in *; [done | | | done].
    + by destruct (joinGame_not_waiting games env gameId player g Hg Hnw)
        as [-> _].
    + by rewrite (makeMove_not_active _ _ _ _ _ _ _ Hg Hna).
  - intros env player. by apply (joinGame_not_waiting games env key player g).
  - intros. by eapply makeMove_not_active.
Qed.

(** Calls on the game that Alice has won. *)
Lemma finished_game_is_frozen_witness :
  ∃ g,
    run_calls alice_wins !! "G1" = Some g
    ∧ status g = completed
    ∧ Forall (leaves "G1") after_the_end
    ∧ foldl run_call (run_calls alice_wins) after_the_end !! "G1" = Some g
    ∧ GameModel.joinGame (env_at "u3" 1600) "G1" bob (run_calls alice_wins)
      = (Throw ErrNotAccepting, run_calls alice_wins)
    ∧ GameModel.makeMove (env_at "m6" 1700) "G1" "B" 2 2 (run_calls alice_wins)
      = (Throw ErrNotActive, run_calls alice_wins).
Proof.
  eexists.
  assert (run_calls alice_wins !! "G1" = Some _) as Hg
    by (vm_compute; reflexivity).
  assert (Forall (leaves "G1") after_the_end) as Hleaves
    by (repeat constructor; discriminate).
  split; [exact Hg |]. split; [reflexivity |]. split; [exact Hleaves |].
  destruct (finished_game_is_frozen _ _ _ _ Hg (or_introl eq_refl) Hleaves)
    as (Hsame & Hjoin & Hmove).
  split; [exact Hsame |]. split; [apply Hjoin | apply Hmove].
Defined.

Lemma index_at_nonneg {A} (l : list A) (i : Z) :
  (0 ≤ i)%Z → index_at l i = l !! Z.to_nat i.
Proof. intros. unfold index_at. by rewrite decide_True. Qed.

Lemma positions_lt (rc : nat * nat) : rc ∈ positions → rc.1 < 3 ∧ rc.2 < 3.
Proof.
  unfold positions. rewrite !elem_of_cons, elem_of_nil. intros H.
  repeat (destruct H as [->|H]; [cbn; lia |]). done.
Qed.

(** A move by the player whose turn it is, on an empty cell of the board,
    succeeds. *)
Lemma makeMove_succeeds env gameId playerId row col games game :
  games_inv games →
  games !! gameId = Some game →
  status game = active →
  currentPlayerId game = Some playerId →
  (0 ≤ row)%Z → (0 ≤ col)%Z →
  cell_at (board game) (Z.to_nat row, Z.to_nat col) = Some None →
  ∃ game' move games',
    GameModel.makeMove env gameId playerId row col games
    = (Ok (game', move), games').
Proof.
  intros Hinv Hg Hst Hcur Hrow0 Hcol0 Hcell. pose proof (Hinv _ _ Hg) as Hgame.
  pose proof (cell_at_positions _ _ _ (inv_board _ _ Hgame) Hcell) as Hpos.
  apply positions_lt in Hpos as [Hr Hc]. cbn in Hr, Hc.
  unfold cell_at in Hcell. cbn in Hcell.
  destruct (board game !! Z.to_nat row) as [cells|] eqn:Hcells; [|done].
  cbn in Hcell.
  destruct (inv_active _ _ Hgame Hst) as ((p & Hp & Hpcur) & _).
  assert (is_Some (find (λ p, player_id p = playerId) (players game)))
    as [found Hfound].
  { unfold find. apply fmap_is_Some.
    apply (list_find_elem_of _ _ p); [by eapply list_elem_of_lookup_2 |].
    congruence. }
  pose proof (is3x3_insert _ _ (Z.to_nat col) _ (Some playerId)
                (inv_board _ _ Hgame) Hcells) as H3x3.
  destruct (GameModel.makeMove env gameId playerId row col games)
    as [[[game' move]|e] games'] eqn:Hmove; [by eexists _, _, _ |].
  exfalso. unfold GameModel.makeMove in Hmove. run_M. rewrite Hg in Hmove.
  rewrite decide_False in Hmove by (by intros ?).
  rewrite decide_False in Hmove by (by intros ?).
  rewrite decide_False in Hmove by lia.
  rewrite (index_at_nonneg _ row), Hcells in Hmove by done.
  rewrite (index_at_nonneg _ col), Hcell in Hmove by done.
  rewrite decide_False in Hmove by (by intros ?).
  rewrite Hfound in Hmove.
  set (game1 := set_moves _ _) in Hmove.
  change (is3x3 (board game1)) in H3x3.
  destruct (checkWinCondition_is_Ok (board game1) playerId H3x3) as [w Hw].
  rewrite Hw in Hmove. destruct (won w); [done |].
  rewrite (isDraw_full _ H3x3) in Hmove.
  destruct (bool_decide _); [done |].
  destruct (next_player_defined _ _ _ Hfound) as [next Hnext].
  change (players game1) with (players game) in Hmove.
  by rewrite Hnext in Hmove.
Qed.

Lemma getValidMoves_is_filter (b : GameBoard) :
  is3x3 b →
  getValidMoves b = Ok (filter (λ rc, cell_at b rc = Some None) positions).
Proof.
  intros (c00 & c01 & c02 & c10 & c11 & c12 & c20 & c21 & c22 & ->)%is3x3_cells.
  apply getValidMoves_3x3.
Qed.

Lemma valid_iff_empty (b : GameBoard) (rc : nat * nat) :
  is3x3 b →
  rc ∈ filter (λ rc, cell_at b rc = Some None) positions
  ↔ cell_at b rc = Some None.
Proof.
  intros H3x3. rewrite list_elem_of_filter. split; [by intros [? _] |].
  intros Hcell. split; [done |]. by eapply cell_at_positions.
Qed.

(** X14. In an active reachable game, a [makeMove] by the player whose
    turn it is succeeds exactly at the positions that [getValidMoves]
    returns for the board. *)
Theorem makeMove_succeeds_iff_valid env gameId playerId row col games game :
  reachable games →
  games !! gameId = Some game →
  status game = active →
  currentPlayerId game = Some playerId →
  ∃ valid,
    getValidMoves (board game) = Ok valid
    ∧ ((∃ game' move games',
          GameModel.makeMove env gameId playerId row col games
          = (Ok (game', move), games'))
       ↔ (0 ≤ row)%Z ∧ (0 ≤ col)%Z ∧ (Z.to_nat row, Z.to_nat col) ∈ valid).
Proof.
  intros Hinv%reachable_inv Hg Hst Hcur. pose proof (Hinv _ _ Hg) as Hgame.
  eexists. split; [by apply getValidMoves_is_filter, Hgame |].
  rewrite (valid_iff_empty _ _ (inv_board _ _ Hgame)). split.
  - intros (game' & move & games' & Hmove).
    apply makeMove_Ok_inv in Hmove
      as (game0 & cells & w & Hg0 & _ & _ & ? & ? & Hrow & Hcell & _).
    simplify_eq. split; [lia |]. split; [lia |].
    unfold cell_at. cbn. by rewrite Hrow.
  - intros (? & ? & ?). by eapply makeMove_succeeds.
Qed.

(** Bob's answer to Alice's first move. *)
Lemma makeMove_succeeds_iff_valid_witness :
  ∃ g,
    reachable (run_calls first_move)
    ∧ run_calls first_move !! "G1" = Some g
    ∧ status g = active
    ∧ currentPlayerId g = Some "B"
    ∧ ∃ valid,
        getValidMoves (board g) = Ok valid
        ∧ ((∃ game' move games',
              GameModel.makeMove (env_at "m2" 1200) "G1" "B" 1 1
                (run_calls first_move)
              = (Ok (game', move), games'))
           ↔ (0 ≤ 1)%Z ∧ (0 ≤ 1)%Z ∧ (Z.to_nat 1, Z.to_nat 1) ∈ valid).
Proof.
  eexists.
  assert (run_calls first_move !! "G1" = Some _) as Hg
    by (vm_compute; reflexivity).
  split; [apply reachable_run_calls |]. split; [exact Hg |].
  split; [reflexivity |]. split; [reflexivity |].
  exact (makeMove_succeeds_iff_valid (env_at "m2" 1200) "G1" "B" 1 1 _ _
           (reachable_run_calls first_move) Hg eq_refl eq_refl).
Defined.

Lemma empty_plus_occupied (b : GameBoard) :
  is3x3 b →
  length (filter (λ rc, cell_at b rc = Some None) positions)
  + occupied_count b = 9.
Proof.
  intros (c00 & c01 & c02 & c10 & c11 & c12 & c20 & c21 & c22 & ->)%is3x3_cells.
  destruct c00, c01, c02, c10, c11, c12, c20, c21, c22; reflexivity.
Qed.

(** X15. [getValidMoves] of the service never changes the map; it fails
    with "Game not found" for an absent id and with "Game is not active"
    for a game that is not [active]; for an [active] reachable game it
    returns the empty cells of the board, and there are 9 minus the number
    of logged moves of them, at least one. *)
Theorem getValidMoves_of_game games gameId :
  reachable games →
  (games !! gameId = None →
     GameService.getValidMoves gameId games = (Throw ErrGameNotFound, games))
  ∧ (∀ g, games !! gameId = Some g → status g ≠ active →
       GameService.getValidMoves gameId games = (Throw ErrNotActive, games))
  ∧ (∀ g, games !! gameId = Some g → status g = active →
       ∃ valid,
         GameService.getValidMoves gameId games = (Ok valid, games)
         ∧ (∀ rc, rc ∈ valid ↔ cell_at (board g) rc = Some None)
         ∧ length valid = 9 - length (moves g)
         ∧ valid ≠ []).
Proof.
  intros Hinv%reachable_inv. unfold GameService.getValidMoves. run_M.
  destruct (games !! gameId) as [g|] eqn:Hg;
    [|by split; [|split; intros ? [=]]].
  split; [done |]. split.
  - intros ? [= <-] Hst. by rewrite decide_True.
  - intros ? [= <-] Hst. rewrite decide_False by (by intros ?).
    pose proof (Hinv _ _ Hg) as Hgame.
    pose proof (inv_board _ _ Hgame) as H3x3.
    rewrite (getValidMoves_is_filter _ H3x3). eexists. split; [done |].
    split; [intros rc; by apply valid_iff_empty |].
    pose proof (empty_plus_occupied _ H3x3) as Hsum.
    rewrite (inv_count _ _ Hgame) in Hsum.
    destruct (inv_active _ _ Hgame Hst) as (_ & _ & Hnotfull).
    destruct (occupied_count_full _ H3x3) as [_ Hfull].
    rewrite (inv_count _ _ Hgame) in Hfull.
    split; [lia |]. intros Hnil. rewrite Hnil in Hsum. cbn in Hsum.
    by apply Hnotfull, Hfull.
Qed.

(** The eight cells left after Alice's first move. *)
Lemma getValidMoves_of_game_witness :
  ∃ g,
    reachable (run_calls first_move)
    ∧ run_calls first_move !! "G1" = Some g
    ∧ status g = active
    ∧ ∃ valid,
        GameService.getValidMoves "G1" (run_calls first_move)
        = (Ok valid, run_calls first_move)
        ∧ (∀ rc, rc ∈ valid ↔ cell_at (board g) rc = Some None)
        ∧ length valid = 9 - length (moves g)
        ∧ valid ≠ [].
Proof.
  eexists.
  assert (run_calls first_move !! "G1" = Some _) as Hg
    by (vm_compute; reflexivity).
  split; [apply reachable_run_calls |]. split; [exact Hg |].
  split; [reflexivity |].
  exact (proj2 (proj2 (getValidMoves_of_game _ "G1"
                         (reachable_run_calls first_move)))
           _ Hg eq_refl).
Defined.

(** ** Listing the games *)

Lemma insert_newest_Permutation g l : insert_newest g l ≡ₚ g :: l.
Proof.
  induction l as [|h t IH]; [done |]. cbn. case_decide; [|done].
  rewrite IH. apply Permutation_swap.
Qed.

Lemma sort_newest_first_Permutation l : sort_newest_first l ≡ₚ l.
Proof.
  induction l as [|g l IH]; [done |]. cbn.
  by rewrite insert_newest_Permutation, IH.
Qed.

Lemma insert_newest_sorted g l :
  StronglySorted not_older l → StronglySorted not_older (insert_newest g l).
Proof.
  induction 1 as [|h t Hsorted IH Hall]; cbn; [by repeat constructor |].
  case_decide as Hlt.
  - constructor; [done |]. rewrite insert_newest_Permutation.
    constructor; [unfold not_older; lia | done].
  - constructor; [by constructor |].
    constructor; [unfold not_older; lia |].
    eapply Forall_impl; [exact Hall |]. unfold not_older. intros; lia.
Qed.

Lemma sort_newest_first_sorted l :
  StronglySorted not_older (sort_newest_first l).
Proof.
  induction l as [|g l IH]; [constructor |]. by apply insert_newest_sorted.
Qed.

(** The sort keeps the order of the games created at the same instant. *)
Lemma insert_newest_stable (t : Z) g l :
  filter (λ x, createdAt x = t) (insert_newest g l)
  = filter (λ x, createdAt x = t) (g :: l).
Proof.
  induction l as [|h l IH]; [done |]. cbn. case_decide as Hlt; [|done].
  rewrite !filter_cons in *. rewrite IH.
  repeat case_decide; try done; lia.
Qed.

Lemma sort_newest_first_stable (t : Z) l :
  filter (λ x, createdAt x = t) (sort_newest_first l)
  = filter (λ x, createdAt x = t) l.
Proof.
  induction l as [|g l IH]; [done |].
  change (sort_newest_first (g :: l))
    with (insert_newest g (sort_newest_first l)).
  by rewrite insert_newest_stable, !filter_cons, IH.
Qed.

Lemma omap_lookup_map_to_list (games : gmap string Game)
    (l : list (string * Game)) :
  (∀ k v, (k, v) ∈ l → games !! k = Some v) →
  omap (λ k, games !! k) l.*1 = l.*2.
Proof.
  induction l as [|[k v] l IH]; [done |]. intros Hl. cbn.
  rewrite (Hl k v) by apply list_elem_of_here.
  f_equal. apply IH. intros k' v' ?. apply Hl. by apply list_elem_of_further.
Qed.

(** An iteration order of the keys enumerates the values of the map. *)
Lemma values_in_Permutation order (games : gmap string Game) :
  key_order order games → values_in order games ≡ₚ (map_to_list games).*2.
Proof.
  intros [Hnodup Hkeys]. unfold values_in.
  rewrite <- (omap_lookup_map_to_list games (map_to_list games))
    by (intros k v; apply elem_of_map_to_list).
  apply omap_Permutation, NoDup_Permutation; [done | |].
  - apply NoDup_fst_map_to_list.
  - intros k. rewrite Hkeys, list_elem_of_fmap. split.
    + intros [v Hv]. exists (k, v). by rewrite elem_of_map_to_list.
    + intros ([k' v] & -> & Hin%elem_of_map_to_list). by eexists.
Qed.

Lemma filter_has_status_None (l : list Game) : filter (has_status None) l = l.
Proof.
  induction l as [|g l IH]; [done |]. rewrite filter_cons. by rewrite IH.
Qed.

Lemma listGames_eq order wanted games :
  GameModel.listGames order wanted games
  = (Ok (sort_newest_first (filter (has_status wanted) (values_in order games))),
     games).
Proof.
  unfold GameModel.listGames. destruct wanted as [st|]; cbn; [done |].
  by rewrite filter_has_status_None.
Qed.

(** A [Map] iterates over its keys in the order of their first
    insertion. *)
Lemma key_order_empty : key_order [] ∅.
Proof.
  split; [constructor |]. intros k. rewrite lookup_empty.
  split; [by intros ?%elem_of_nil | by intros [? ?]].
Qed.

Lemma key_order_insert order games k g :
  key_order order games → games !! k = None →
  key_order (order ++ [k]) (<[k := g]> games).
Proof.
  intros [Hnodup Hkeys] Hfree. split.
  - apply NoDup_app. split; [done |]. split; [| apply NoDup_singleton].
    intros x Hx ->%list_elem_of_singleton. apply Hkeys in Hx.
    rewrite Hfree in Hx. by destruct Hx.
  - intros x. rewrite elem_of_app, list_elem_of_singleton, Hkeys.
    destruct (decide (x = k)) as [->|Hne].
    + rewrite lookup_insert_eq. split; [by eauto | by right].
    + rewrite lookup_insert_ne by done. split; [by intros [?|?] | by left].
Qed.

Lemma key_order_two (k1 k2 : string) (g1 g2 : Game) :
  k1 ≠ k2 → key_order [k1; k2] (<[k2 := g2]> (<[k1 := g1]> ∅)).
Proof.
  intros Hne. apply (key_order_insert [k1]).
  - apply (key_order_insert []); [apply key_order_empty | apply lookup_empty].
  - by rewrite lookup_insert_ne, lookup_empty.
Qed.

Lemma key_order_two_games : key_order [ "G1"; "G2" ] (run_calls two_games).
Proof.
  assert (∃ g1 g2, run_calls two_games = <["G2" := g2]> (<["G1" := g1]> ∅))
    as (g1 & g2 & ->) by (eexists _, _; vm_compute; reflexivity).
  by apply key_order_two.
Qed.


Lemma key_order_lobby_and_open :
  key_order [ "G1"; "G2" ] (run_calls lobby_and_open).
Proof.
  assert (∃ g1 g2,
            run_calls lobby_and_open = <["G2" := g2]> (<["G1" := g1]> ∅))
    as (g1 & g2 & ->) by (eexists _, _; vm_compute; reflexivity).
  by apply key_order_two.
Qed.

(** The games that [listGames] returns, as a multiset and as a set. *)
Lemma sorted_values_Permutation order wanted (games : gmap string Game) :
  key_order order games →
  sort_newest_first (filter (has_status wanted) (values_in order games))
  ≡ₚ filter (has_status wanted) (map_to_list games).*2.
Proof.
  intros Horder.
  by rewrite sort_newest_first_Permutation, (values_in_Permutation _ _ Horder).
Qed.

Lemma sorted_values_elem_of order wanted (games : gmap string Game) g :
  key_order order games →
  g ∈ sort_newest_first (filter (has_status wanted) (values_in order games))
  ↔ has_status wanted g ∧ ∃ key, games !! key = Some g.
Proof.
  intros Horder.
  rewrite (sorted_values_Permutation _ _ _ Horder), list_elem_of_filter,
    list_elem_of_fmap.
  split.
  - intros [? ([k v] & -> & Hin%elem_of_map_to_list)]. split; [done |].
    by exists k.
  - intros [? [k Hk]]. split; [done |]. exists (k, g).
    by rewrite elem_of_map_to_list.
Qed.

(** X16. [listGames] never fails and never changes the map. For every
    order in which the [Map] can iterate, the list it returns holds
    exactly the stored games with the wanted status (all the stored games
    when no status is given), each stored game once, sorted from the
    newest to the oldest creation date; games created at the same instant
    come in the order of the iteration. *)
Theorem listGames_newest_first order wanted games :
  key_order order games →
  ∃ listed,
    GameModel.listGames order wanted games = (Ok listed, games)
    ∧ listed ≡ₚ filter (has_status wanted) (map_to_list games).*2
    ∧ (∀ g, g ∈ listed
            ↔ has_status wanted g ∧ ∃ key, games !! key = Some g)
    ∧ StronglySorted not_older listed
    ∧ (∀ t, filter (λ g, createdAt g = t) listed
            = filter (λ g, createdAt g = t)
                (filter (has_status wanted) (values_in order games))).
Proof.
  intros Horder. rewrite listGames_eq. eexists. split; [done |].
  split; [by apply sorted_values_Permutation |]. split; [|split].
  - intros g. by apply sorted_values_elem_of.
  - apply sort_newest_first_sorted.
  - intros t. apply sort_newest_first_stable.
Qed.

(** The finished game G1 and the younger game G2: G2 comes first. *)
Lemma listGames_newest_first_witness :
  key_order [ "G1"; "G2" ] (run_calls two_games)
  ∧ ∃ listed,
      GameModel.listGames [ "G1"; "G2" ] None (run_calls two_games)
      = (Ok listed, run_calls two_games)
      ∧ game_id <$> listed = [ "G2"; "G1" ]
      ∧ listed ≡ₚ filter (has_status None) (map_to_list (run_calls two_games)).*2
      ∧ (∀ g, g ∈ listed
              ↔ has_status None g ∧ ∃ key, run_calls two_games !! key = Some g)
      ∧ StronglySorted not_older listed
      ∧ (∀ t, filter (λ g, createdAt g = t) listed
              = filter (λ g, createdAt g = t)
                  (filter (has_status None)
                     (values_in [ "G1"; "G2" ] (run_calls two_games)))).
Proof.
  split; [exact key_order_two_games |].
  destruct (listGames_newest_first [ "G1"; "G2" ] None _ key_order_two_games)
    as (listed & Hlisted & Hrest).
  exists listed. split; [exact Hlisted |]. split; [| exact Hrest].
  assert (GameModel.listGames [ "G1"; "G2" ] None (run_calls two_games)
          = (Ok listed, run_calls two_games)) as Hrun by exact Hlisted.
  vm_compute in Hrun. injection Hrun as <-. reflexivity.
Defined.




Example counts_of_drawn_and_open :
  (GameService.getActiveGamesCount [ "G1"; "G2" ] (run_calls drawn_and_open)).1
  = Ok 0
  ∧ (GameService.getWaitingGamesCount [ "G1"; "G2" ]
       (run_calls drawn_and_open)).1 = Ok 1
  ∧ (GameService.getCompletedGamesCount [ "G1"; "G2" ]
       (run_calls drawn_and_open)).1 = Ok 0
  ∧ size (run_calls drawn_and_open) = 2.
Proof. vm_compute. done. Qed.

(** X18. The life cycle of an entry: [createGame] with an id that is not
    in use stores a [waiting] game without players and moves, with an
    empty board and a name that is not the empty string (a missing or
    empty name is replaced by a generated one); [getGameById] then
    returns that game; and [deleteGame] on it gives back the map as it
    was before the creation. *)
Theorem createGame_then_deleteGame env name games :
  games !! uuidv4 env = None →
  ∃ g games1,
    GameModel.createGame env name games = (Ok g, games1)
    ∧ game_id g = uuidv4 env
    ∧ status g = waiting ∧ players g = [] ∧ moves g = []
    ∧ board g = createEmptyBoard
    ∧ currentPlayerId g = None ∧ winnerId g = None
    ∧ game_name g ≠ ""
    ∧ (∀ n, name = Some n → n ≠ "" → game_name g = n)
    ∧ GameModel.getGameById (uuidv4 env) games1 = (Ok (Some g), games1)
    ∧ GameModel.deleteGame (uuidv4 env) games1 = (Ok (), games).
Proof.
  intros Hfresh. unfold GameModel.createGame, GameModel.deleteGame. run_M. cbn.
  eexists _, _. split; [reflexivity |]. cbn.
  rewrite lookup_insert_eq. rewrite delete_insert_eq, delete_id by done.
  repeat split; try done.
  - destruct name as [n|]; cbn; [|done]. by case_bool_decide.
  - intros n -> Hn. cbn. by rewrite bool_decide_eq_true_2.
Qed.

(** A second game, without a name, is opened beside G1 and deleted. *)
Lemma createGame_then_deleteGame_witness :
  run_calls lobby !! uuidv4 (env_at "G2" 3000) = None
  ∧ ∃ g games1,
      GameModel.createGame (env_at "G2" 3000) None (run_calls lobby)
      = (Ok g, games1)
      ∧ game_id g = "G2"
      ∧ status g = waiting ∧ players g = [] ∧ moves g = []
      ∧ board g = createEmptyBoard
      ∧ currentPlayerId g = None ∧ winnerId g = None
      ∧ game_name g ≠ ""
      ∧ (∀ n, None = Some n → n ≠ "" → game_name g = n)
      ∧ GameModel.getGameById "G2" games1 = (Ok (Some g), games1)
      ∧ GameModel.deleteGame "G2" games1 = (Ok (), run_calls lobby).
Proof.
  assert (run_calls lobby !! uuidv4 (env_at "G2" 3000) = None) as Hfree
    by (vm_compute; reflexivity).
  split; [exact Hfree |].
  exact (createGame_then_deleteGame (env_at "G2" 3000) None _ Hfree).
Defined.

(** ** The service and its player model *)

Lemma find_None {A} (P : A → Prop) `{∀ x, Decision (P x)} (l : list A) :
  find P l = None ↔ Forall (λ x, ¬ P x) l.
Proof.
  unfold find. rewrite fmap_None. apply list_find_None.
Qed.

Lemma find_Some {A} (P : A → Prop) `{∀ x, Decision (P x)} (l : list A) (x : A) :
  find P l = Some x → x ∈ l ∧ P x.
Proof.
  unfold find. intros ([i y] & Hfind & ->)%fmap_Some.
  apply list_find_Some in Hfind as (Hi & ? & _).
  split; [by eapply list_elem_of_lookup_2 | done].
Qed.

(** The moves of two players who take turns: their numbers add up to the
    length of the log, and the one who starts has made one more when the
    length is odd. *)
Lemma movers_count (ms : list Move) (ida idb : string) :
  ida ≠ idb →
  (∀ i mv, ms !! i = Some mv →
           move_playerId mv = if decide (i mod 2 = 0) then ida else idb) →
  length (filter (λ mv, move_playerId mv = ida) ms)
  + length (filter (λ mv, move_playerId mv = idb) ms) = length ms
  ∧ length (filter (λ mv, move_playerId mv = ida) ms)
    = length (filter (λ mv, move_playerId mv = idb) ms) + length ms mod 2.
Proof.
  intros Hne. induction ms as [|x ms IH] using rev_ind; [done |].
  intros Hmovers.
  destruct IH as [Hsum Hdiff].
  { intros i mv Hi. apply Hmovers. by apply lookup_app_l_Some. }
  specialize (Hmovers (length ms) x (list_lookup_middle _ _ _ _ eq_refl)).
  rewrite !filter_app, !length_app, !filter_cons, !filter_nil. cbn.
  rewrite Nat.add_1_r.
  destruct (parity_step (length ms)) as [[Hn HSn]|[Hn HSn]];
    rewrite Hn in *; rewrite HSn.
  - rewrite decide_True in Hmovers by done.
    rewrite decide_True by done. rewrite decide_False by congruence.
    cbn. lia.
  - rewrite decide_False in Hmovers by done.
    rewrite decide_False by congruence. rewrite decide_True by done.
    cbn. lia.
Qed.

Section service.

Context {PlayerStore StoredPlayer : Type}.
Variable getPlayerById : string → PlayerStore → option StoredPlayer.
Variable recordGameResult :
  string → GameService.GameResult → nat → PlayerStore →
  option StoredPlayer * PlayerStore.

(** X19. [joinGame] of the service never changes the player model. It
    fails with "Player not found in database" when the player model does
    not know the player, and with "Player is already in an active game"
    when the player is among the players of any stored [active] game,
    both times leaving the games as they were; in every other case it
    does what [joinGame] of the model does. *)
Theorem service_joinGame order env gameId player
    (st : GameService.ServiceState PlayerStore) :
  key_order order (GameService.gameModel st) →
  let in_active_game :=
    ∃ key g p, GameService.gameModel st !! key = Some g
               ∧ status g = active
               ∧ p ∈ players g ∧ player_id p = player_id player in
  GameService.playerModel
    (GameService.joinGame getPlayerById order env gameId player st).2
  = GameService.playerModel st
  ∧ (getPlayerById (player_id player) (GameService.playerModel st) = None →
       GameService.joinGame getPlayerById order env gameId player st
       = (GameService.SThrow GameService.ErrPlayerNotInDatabase, st))
  ∧ (is_Some (getPlayerById (player_id player) (GameService.playerModel st)) →
     in_active_game →
       GameService.joinGame getPlayerById order env gameId player st
       = (GameService.SThrow GameService.ErrPlayerInActiveGame, st))
  ∧ (is_Some (getPlayerById (player_id player) (GameService.playerModel st)) →
     ¬ in_active_game →
       GameService.joinGame getPlayerById order env gameId player st
       = GameService.on_games (GameModel.joinGame env gameId player) st).
Proof.
  intros Horder in_active_game.
  pose proof (listGames_eq order (Some active) (GameService.gameModel st))
    as Hlisted.
  pose proof (λ g, sorted_values_elem_of order (Some active) _ g Horder)
    as Hin.
  set (listed := sort_newest_first _) in Hlisted, Hin.
  assert (GameService.joinGame getPlayerById order env gameId player st
          = match getPlayerById (player_id player) (GameService.playerModel st)
            with
            | None => (GameService.SThrow GameService.ErrPlayerNotInDatabase, st)
            | Some _ =>
              match find (λ game, Exists (λ p, player_id p = player_id player)
                                         (players game)) listed with
              | Some _ =>
                  (GameService.SThrow GameService.ErrPlayerInActiveGame, st)
              | None =>
                  GameService.on_games (GameModel.joinGame env gameId player) st
              end
            end) as ->.
  { unfold GameService.joinGame. unfold GameService.on_games at 1.
    rewrite Hlisted. by destruct st. }
  assert (in_active_game
          ↔ is_Some (find (λ game, Exists (λ p, player_id p = player_id player)
                                          (players game)) listed)) as Hfind.
  { split.
    - intros (key & g & p & Hg & Hst & Hp & Hid).
      destruct (find _ listed) as [?|] eqn:Hnone; [done |].
      apply find_None in Hnone. rewrite Forall_forall in Hnone.
      destruct (Hnone g).
      + apply Hin. split; [done | by exists key].
      + apply Exists_exists. by exists p.
    - intros [g (Hg & (p & Hp & Hid)%Exists_exists)%find_Some].
      apply Hin in Hg as [Hst [key Hg]]. by exists key, g, p. }
  destruct (getPlayerById _ _) as [stored|]; cbn.
  - destruct (find _ listed) as [game|] eqn:Hfound.
    + split; [done |]. split; [done |]. split; [done |].
      intros _ Hnot. destruct Hnot. by apply Hfind.
    + split.
      { unfold GameService.on_games.
        by destruct (GameModel.joinGame _ _ _ _) as [[?|?] ?]. }
      split; [done |]. split; [|done].
      intros _ [? ?]%Hfind. done.
  - split; [done |]. split; [done |]. by split; intros [? ?].
Qed.

(** X20. [makeMove] of the service rejects coordinates outside 0..2
    before it looks at the game. With coordinates in range it fails
    exactly when [makeMove] of the model fails, with the same error and
    without touching the player model; when the model's [makeMove]
    succeeds it returns the same game and move, whatever the player model
    does. It always leaves the games as the model's [makeMove] leaves
    them. The player model is called only when the returned game is
    [completed] or a [draw], once for each entry of its players. *)
Theorem service_makeMove env gameId playerId row col
    (st : GameService.ServiceState PlayerStore) :
  let service :=
    GameService.makeMove recordGameResult env gameId playerId row col st in
  let model :=
    GameModel.makeMove env gameId playerId row col (GameService.gameModel st) in
  ((row < 0 ∨ 2 < row ∨ col < 0 ∨ 2 < col)%Z →
     service
     = (GameService.SThrow (GameService.FromModel ErrCoordinates), st))
  ∧ ((0 ≤ row ≤ 2)%Z ∧ (0 ≤ col ≤ 2)%Z →
       GameService.gameModel service.2 = model.2
       ∧ (∀ e, model.1 = Throw e →
            service.1 = GameService.SThrow (GameService.FromModel e)
            ∧ GameService.playerModel service.2 = GameService.playerModel st)
       ∧ (∀ game' move, model.1 = Ok (game', move) →
            service.1 = GameService.SOk (game', move)
            ∧ GameService.playerModel service.2
              = if decide (status game' = completed ∨ status game' = draw)
                then foldl (λ ps '(playerId, result, playerMoves),
                              (recordGameResult playerId result playerMoves ps).2)
                       (GameService.playerModel st)
                       (GameService.recorded_results game')
                else GameService.playerModel st)).
Proof.
  intros service model. unfold service, GameService.makeMove. split.
  - intros Hout. by rewrite decide_True.
  - intros Hin. rewrite decide_False by lia.
    unfold GameService.on_games. fold model.
    destruct model as [[[game' move]|e] games']; cbn.
    + unfold GameService.updatePlayerStats.
      destruct (decide (status game' = completed ∨ status game' = draw))
        as [Hend|Hgoes]; cbn.
      * rewrite decide_False by (intros [? ?]; destruct Hend; congruence).
        cbn. split; [done |]. split; [done |].
        intros ? ? [= <- <-]. by rewrite decide_True.
      * split; [done |]. split; [done |].
        intros ? ? [= <- <-]. by rewrite decide_False.
    + split; [done |]. split; [by intros ? [= <-] | done].
Qed.

End service.
(** Alice, who plays in G1, may not join G2. *)
Lemma service_joinGame_witness :
  let st := {| GameService.gameModel := run_calls lobby_and_open;
               GameService.playerModel := alice_and_bob |} in
  key_order [ "G1"; "G2" ] (GameService.gameModel st)
  ∧ is_Some (logged_getPlayerById (player_id alice)
               (GameService.playerModel st))
  ∧ GameService.joinGame logged_getPlayerById [ "G1"; "G2" ]
      (env_at "u3" 3100) "G2" alice st
    = (GameService.SThrow GameService.ErrPlayerInActiveGame, st).
Proof.
  intros st.
  assert (is_Some (logged_getPlayerById (player_id alice)
                     (GameService.playerModel st))) as Hknown
    by (vm_compute; eexists; reflexivity).
  split; [exact key_order_lobby_and_open |]. split; [exact Hknown |].
  apply (service_joinGame logged_getPlayerById [ "G1"; "G2" ]
           (env_at "u3" 3100) "G2" alice st key_order_lobby_and_open);
    [exact Hknown |].
  exists "G1", lobby_game, alice.
  split; [vm_compute; reflexivity |]. split; [reflexivity |].
  split; [apply list_elem_of_here | reflexivity].
Defined.

(** Alice's winning move through the service: both results are
    recorded. *)
Lemma service_makeMove_witness :
  let st := {| GameService.gameModel := run_calls before_win;
               GameService.playerModel := alice_and_bob |} in
  let service :=
    GameService.makeMove logged_recordGameResult (env_at "m5" 1500)
      "G1" "A" 0 2 st in
  ∃ game' move,
    ((0 ≤ 0 ≤ 2)%Z ∧ (0 ≤ 2 ≤ 2)%Z)
    ∧ (GameModel.makeMove (env_at "m5" 1500) "G1" "A" 0 2
         (run_calls before_win)).1 = Ok (game', move)
    ∧ status game' = completed
    ∧ service.1 = GameService.SOk (game', move)
    ∧ GameService.playerModel service.2
      = ([ "A"; "B" ],
         [ ("A", GameService.result_win, 3);
           ("B", GameService.result_loss, 2) ]).
Proof.
  intros st service. eexists _, _.
  assert ((0 ≤ 0 ≤ 2)%Z ∧ (0 ≤ 2 ≤ 2)%Z) as Hin by lia.
  assert ((GameModel.makeMove (env_at "m5" 1500) "G1" "A" 0 2
             (run_calls before_win)).1 = Ok (_, _)) as Hmove
    by (vm_compute; reflexivity).
  split; [exact Hin |]. split; [exact Hmove |]. split; [reflexivity |].
  destruct (proj2 (proj2 (proj2 (service_makeMove logged_recordGameResult
                                   (env_at "m5" 1500) "G1" "A" 0 2 st) Hin))
              _ _ Hmove) as [Hresult Hplayers].
  split; [exact Hresult |].
  etrans; [exact Hplayers |]. vm_compute. reflexivity.
Defined.


(** X21. When a reachable game between two players with different ids
    has ended, the service records one result for each of them, in the
    order in which they joined: "draw" for both after a draw, "win" for
    the winner and "loss" for the other one otherwise. The moves credited
    to them add up to the length of the move log, and the first-joined
    player is credited one move more when that length is odd. *)
Theorem results_recorded_for_finished_game games key g a b :
  reachable games → games !! key = Some g →
  status g = completed ∨ status g = draw →
  players g = [a; b] → player_id a ≠ player_id b →
  ∃ ra rb na nb,
    GameService.recorded_results g
    = [ (player_id a, ra, na); (player_id b, rb, nb) ]
    ∧ na + nb = length (moves g)
    ∧ na = nb + length (moves g) mod 2
    ∧ (status g = draw →
         ra = GameService.result_draw ∧ rb = GameService.result_draw)
    ∧ (status g = completed →
         winnerId g = Some (player_id a)
         ∧ ra = GameService.result_win ∧ rb = GameService.result_loss
         ∨ winnerId g = Some (player_id b)
           ∧ ra = GameService.result_loss ∧ rb = GameService.result_win).
Proof.
  intros Hinv%reachable_inv Hg Hend Hplayers Hne.
  pose proof (Hinv _ _ Hg) as Hgame.
  unfold GameService.recorded_results. rewrite Hplayers. cbn.
  eexists _, _, _, _. split; [reflexivity |].
  assert (∀ i mv, moves g !! i = Some mv →
            move_playerId mv
            = if decide (i mod 2 = 0) then player_id a else player_id b)
    as Hmovers.
  { intros i mv Hi.
    destruct (inv_moves _ _ Hgame _ _ Hi) as (_ & _ & _ & _ & p & Hp & ->).
    rewrite Hplayers in Hp.
    destruct (parity_step i) as [[Hn _]|[Hn _]]; rewrite Hn in *;
      by simplify_eq/=. }
  destruct (movers_count _ _ _ Hne Hmovers) as [Hsum Hdiff].
  split; [done |]. split; [done |]. split.
  - intros Hdraw. by rewrite !decide_True.
  - intros Hcompleted.
    destruct (decide (status g = draw)) as [?|_]; [congruence |].
    destruct (inv_last _ _ Hgame Hend) as (ms & mv & Hmoves & _ & Hwinner).
    specialize (Hwinner Hcompleted).
    specialize (Hmovers (length ms) mv).
    rewrite Hmoves in Hmovers.
    specialize (Hmovers (list_lookup_middle _ _ _ _ eq_refl)).
    rewrite Hwinner, Hmovers. case_decide.
    + left. split; [done |]. split; case_decide as Heq; try done.
      injection Heq as Heq. by destruct Hne.
    + right. split; [done |]. split; case_decide as Heq; try done.
      injection Heq as Heq. by destruct Hne.
Qed.

(** Alice wins with her third move, Bob has made two. *)
Lemma results_recorded_for_finished_game_witness :
  ∃ g,
    reachable (run_calls alice_wins)
    ∧ run_calls alice_wins !! "G1" = Some g
    ∧ status g = completed
    ∧ players g = [alice; bob]
    ∧ player_id alice ≠ player_id bob
    ∧ GameService.recorded_results g
      = [ ("A", GameService.result_win, 3); ("B", GameService.result_loss, 2) ]
    ∧ ∃ ra rb na nb,
        GameService.recorded_results g
        = [ (player_id alice, ra, na); (player_id bob, rb, nb) ]
        ∧ na + nb = length (moves g)
        ∧ na = nb + length (moves g) mod 2
        ∧ (status g = draw →
             ra = GameService.result_draw ∧ rb = GameService.result_draw)
        ∧ (status g = completed →
             winnerId g = Some (player_id alice)
             ∧ ra = GameService.result_win ∧ rb = GameService.result_loss
             ∨ winnerId g = Some (player_id bob)
               ∧ ra = GameService.result_loss ∧ rb = GameService.result_win).
Proof.
  eexists.
  assert (run_calls alice_wins !! "G1" = Some _) as Hg
    by (vm_compute; reflexivity).
  split; [apply reachable_run_calls |]. split; [exact Hg |].
  split; [reflexivity |]. split; [reflexivity |].
  assert (player_id alice ≠ player_id bob) as Hne by discriminate.
  split; [exact Hne |]. split; [reflexivity |].
  exact (results_recorded_for_finished_game _ _ _ alice bob
           (reachable_run_calls alice_wins) Hg (or_introl eq_refl)
           eq_refl Hne).
Defined.

(** ** The service and its own player model *)

Section service_states.

Context {StoredPlayer : Type}.
Variable recorded :
  GameService.GameResult → nat → StoredPlayer → StoredPlayer.

(** X22. The service never fills the player model that its constructor
    creates: no public method adds a player to it. So in every state that
    the methods of a new service produce, [joinGame] fails with "Player
    not found in database" for every player and every game, every stored
    game is still [waiting] without players and without moves, and
    [makeMove] fails for all arguments without changing anything. *)
Theorem nobody_joins_through_the_service
    (st : GameService.ServiceState (gmap string StoredPlayer)) :
  service_reachable recorded st →
  GameService.playerModel st = ∅
  ∧ (∀ key g, GameService.gameModel st !! key = Some g →
       status g = waiting ∧ players g = [] ∧ moves g = []
       ∧ board g = createEmptyBoard)
  ∧ (∀ order env gameId player,
       GameService.joinGame PlayerModel.getPlayerById
         order env gameId player st
       = (GameService.SThrow GameService.ErrPlayerNotInDatabase, st))
  ∧ (∀ env gameId playerId row col,
       ∃ e,
         GameService.makeMove (PlayerModel.recordGameResult recorded)
           env gameId playerId row col st
         = (GameService.SThrow (GameService.FromModel e), st)
         ∧ e ∈ [ ErrCoordinates; ErrGameNotFound; ErrNotActive ]).
Proof.
  intros Hst.
  assert (∀ st : GameService.ServiceState (gmap string StoredPlayer),
            GameService.playerModel st = ∅ →
            ∀ order env gameId player,
              GameService.joinGame PlayerModel.getPlayerById
                order env gameId player st
              = (GameService.SThrow GameService.ErrPlayerNotInDatabase, st))
    as Hjoin.
  { intros st' Hnobody order env gameId player.
    unfold GameService.joinGame, PlayerModel.getPlayerById.
    rewrite Hnobody. reflexivity. }
  assert (∀ st : GameService.ServiceState (gmap string StoredPlayer),
            (∀ key g, GameService.gameModel st !! key = Some g →
               status g = waiting) →
            ∀ env gameId playerId row col,
              ∃ e,
                GameService.makeMove (PlayerModel.recordGameResult recorded)
                  env gameId playerId row col st
                = (GameService.SThrow (GameService.FromModel e), st)
                ∧ e ∈ [ ErrCoordinates; ErrGameNotFound; ErrNotActive ])
    as Hmove.
  { intros [games ps] Hwaiting env gameId playerId row col.
    unfold GameService.makeMove, GameService.on_games. cbn in *.
    case_decide.
    { eexists. split; [done |]. apply list_elem_of_here. }
    destruct (games !! gameId) as [g|] eqn:Hg.
    - rewrite (makeMove_not_active _ _ _ _ _ _ _ Hg)
        by (rewrite (Hwaiting _ _ Hg); discriminate).
      eexists. split; [done |]. do 2 apply list_elem_of_further.
      apply list_elem_of_here.
    - assert (GameModel.makeMove env gameId playerId row col games
              = (Throw ErrGameNotFound, games)) as ->.
      { unfold GameModel.makeMove. run_M. by rewrite Hg. }
      eexists. split; [done |]. apply list_elem_of_further.
      apply list_elem_of_here. }
  enough (GameService.playerModel st = ∅
          ∧ (∀ key g, GameService.gameModel st !! key = Some g →
               status g = waiting ∧ players g = [] ∧ moves g = []
               ∧ board g = createEmptyBoard)) as [Hnobody Hgames].
  { split; [done |]. split; [done |]. split; [by apply Hjoin |].
    apply Hmove. intros key g Hg. by destruct (Hgames _ _ Hg). }
  induction Hst as [|env name st _ [Hnobody Hgames]
                     |order env gameId player st _ [Hnobody Hgames] _
                     |env gameId playerId row col st _ [Hnobody Hgames]
                     |gameId st _ [Hnobody Hgames]].
  - split; [done |]. intros key g. cbn. by rewrite lookup_empty.
  - unfold GameService.on_games, GameModel.createGame. run_M. cbn.
    split; [done |]. intros key g.
    destruct (decide (key = uuidv4 env)) as [->|Hne].
    + rewrite lookup_insert_eq. by intros [= <-].
    + rewrite lookup_insert_ne by done. apply Hgames.
  - by rewrite Hjoin.
  - destruct (Hmove st) with env gameId playerId row col as (e & -> & _).
    + intros key g Hg. by destruct (Hgames _ _ Hg).
    + done.
  - destruct st as [games ps]. cbn in *.
    unfold GameService.on_games, GameService.deleteGame, GameModel.deleteGame.
    run_M. cbn.
    destruct (games !! gameId) as [g|] eqn:Hg; cbn; [| done].
    case_decide; cbn; [done |]. rewrite Hg. cbn.
    split; [done |]. intros key g' [_ Hg']%lookup_delete_Some.
    by apply (Hgames key).
Qed.

End service_states.
(** A new service with one game: Alice cannot join it. The stored player
    is here the number of games played. *)
Lemma nobody_joins_through_the_service_witness :
  let recorded := λ (_ : GameService.GameResult) (_ played : nat), S played in
  let st :=
    (GameService.on_games
       (GameModel.createGame (env_at "G1" 1000) (Some "G1"))
       {| GameService.gameModel := ∅; GameService.playerModel := ∅ |}).2 in
  service_reachable recorded st
  ∧ is_Some (GameService.gameModel st !! "G1")
  ∧ GameService.joinGame PlayerModel.getPlayerById [ "G1" ]
      (env_at "u1" 1010) "G1" alice st
    = (GameService.SThrow GameService.ErrPlayerNotInDatabase, st).
Proof.
  intros recorded st.
  assert (service_reachable recorded st) as Hst
    by apply after_createGame, new_service.
  split; [exact Hst |]. split; [vm_compute; eexists; reflexivity |].
  exact (proj1 (proj2 (proj2
           (nobody_joins_through_the_service recorded st Hst)))
           [ "G1" ] (env_at "u1" 1010) "G1" alice).
Defined.

